(** * Ridge regression and leave-one-out cross-validation

    A shallow embedding of the notebooks of ridge-regression-doc: the
    efficient and the brute-force LOOCV estimators, the local-optimum
    verifier, the ridge fit, the aggregation of the Monte Carlo errors and
    the generator of rotation matrices.

    Arrays are MathComp matrices over a real field [F]: the arithmetic of
    the notebooks is read over exact numbers, so that rounding, overflow
    and underflow are left out.  What NumPy does where exact arithmetic has
    no answer is kept: a division by zero yields an infinity or a NaN that
    propagates, and [np.linalg.inv] raises when the solver reports a
    singular matrix.  The solver is a parameter [lapack]: it inverts an
    invertible matrix and reports the zero matrix as singular; of what it
    does with another singular matrix nothing is assumed, since in
    floating point the elimination may miss the zero pivot and deliver a
    matrix. *)

From HB Require Import structures.
From mathcomp Require Import boot order algebra.
From mathcomp Require Import ring lra.
From Stdlib Require Import String.

Set Implicit Arguments.
Unset Strict Implicit.
Unset Printing Implicit Defensive.

Import GRing.Theory Num.Theory Order.Theory.
Local Open Scope ring_scope.

(** ** Python outcomes

    A computation either returns or raises.  Beside its outcome it records
    how many times [np.linalg.inv] was called, the cost the efficient
    estimator is meant to save. *)

Inductive exn : Type :=
  | LinAlgError
  | ZeroDivisionError
  | ValueError
  | AssertionError (msg : string).

Inductive outcome (T : Type) : Type :=
  | Raise (e : exn)
  | Return (v : T).

Arguments Raise {T} e.
Arguments Return {T} v.

Definition comp (T : Type) : Type := (nat * outcome T)%type.

Definition ret {T : Type} (v : T) : comp T := (0%N, Return v).

Definition raise {T : Type} (e : exn) : comp T := (0%N, Raise e).

Definition bind {T U : Type} (c : comp T) (k : T -> comp U) : comp U :=
  match c.2 with
  | Raise e => (c.1, Raise e)
  | Return v => ((c.1 + (k v).1)%N, (k v).2)
  end.

Notation "x <- c ;; k" := (bind c (fun x => k))
  (at level 100, c at next level, right associativity).

(** The outcome of a computation, and its number of inversions. *)
Definition result {T : Type} (c : comp T) : outcome T := c.2.

Definition inversions {T : Type} (c : comp T) : nat := c.1.

(** [for x in s: acc = body(acc, x)], leaving the loop at the first raise. *)
Fixpoint foldM {A B : Type} (body : B -> A -> comp B) (acc : B) (s : seq A)
  : comp B :=
  match s with
  | [::] => ret acc
  | x :: s' => acc' <- body acc x ;; foldM body acc' s'
  end.

(** [for x in s: body(x)]. *)
Definition forM {A : Type} (s : seq A) (body : A -> comp unit) : comp unit :=
  foldM (fun _ x => body x) tt s.

(** ** The linear solver

    [np.linalg.inv(A)] hands [A] and the identity to LAPACK's [gesv], and
    raises [LinAlgError] when the routine reports a pivot that is exactly
    zero; otherwise it returns the matrix the routine delivers.  [gesv A]
    is that matrix, or [None] for a zero pivot.  Over exact numbers the
    matrix delivered for an invertible matrix is its inverse, and the
    elimination of the zero matrix of at least one row meets a zero pivot
    at once.  Nothing more is assumed: a singular matrix that is not zero
    may, after rounding, show no zero pivot. *)

Class lapack (F : realFieldType) : Type := Lapack {
  gesv : forall p : nat, 'M[F]_p -> option 'M[F]_p;
  gesv_unit : forall (p : nat) (A : 'M[F]_p),
    A \in unitmx -> gesv A = Some (invmx A);
  gesv_zero : forall p : nat, gesv (0 : 'M[F]_p.+1) = None
}.

(** Elimination over exact numbers: every matrix without an inverse shows
    a zero pivot. *)
Definition exact_elimination (F : realFieldType) : lapack F.
Proof.
apply: (@Lapack F (fun p A => if A \in unitmx then Some (invmx A) else None)).
  by move=> p A ->.
by move=> p; rewrite unitmxE det0 unitr0.
Defined.

(** An elimination that misses the zero pivot of every singular matrix but
    the zero matrix, and delivers the matrix [stray A]. *)
Definition missed_pivot (F : realFieldType)
    (stray : forall p : nat, 'M[F]_p -> 'M[F]_p) : lapack F.
Proof.
apply: (@Lapack F (fun p A =>
          if A \in unitmx then Some (invmx A)
          else if A == 0 then None else Some (stray p A))).
  by move=> p A ->.
by move=> p; rewrite unitmxE det0 unitr0 eqxx.
Defined.

(** ** Floating-point values over exact numbers

    A [np.float64] is a number of [F] or one of the IEEE special values.
    Only the operations the notebooks apply to possibly special values are
    defined; every divisor of the notebooks is a finite number, and a zero
    divisor is the positive zero ([1 - h] with [h = 1], a length, a step). *)

Section Float.

Variable F : realFieldType.
Context {L : lapack F}.

Inductive float : Type :=
  | Fin (v : F)
  | PInf
  | NInf
  | NaN.

Definition xadd (a b : float) : float :=
  match a, b with
  | NaN, _ | _, NaN => NaN
  | PInf, NInf | NInf, PInf => NaN
  | PInf, _ | _, PInf => PInf
  | NInf, _ | _, NInf => NInf
  | Fin u, Fin v => Fin (u + v)
  end.

Definition xopp (a : float) : float :=
  match a with
  | Fin u => Fin (- u)
  | PInf => NInf
  | NInf => PInf
  | NaN => NaN
  end.

Definition xsub (a b : float) : float := xadd a (xopp b).

(** [a / d] for a finite divisor [d]. *)
Definition xdiv (a : float) (d : F) : float :=
  match a with
  | Fin u =>
      if d != 0 then Fin (u / d)
      else if u == 0 then NaN
      else if 0 < u then PInf else NInf
  | PInf => if 0 <= d then PInf else NInf
  | NInf => if 0 <= d then NInf else PInf
  | NaN => NaN
  end.

(** [a ** 2]. *)
Definition xsqr (a : float) : float :=
  match a with
  | Fin u => Fin (u ^+ 2)
  | PInf | NInf => PInf
  | NaN => NaN
  end.

(** [np.abs(a)]. *)
Definition xabs (a : float) : float :=
  match a with
  | Fin u => Fin `|u|
  | PInf | NInf => PInf
  | NaN => NaN
  end.

(** [a < b] and [a > b] against a finite [b]; a NaN compares false. *)
Definition xltr (a : float) (b : F) : bool :=
  match a with
  | Fin u => u < b
  | NInf => true
  | PInf | NaN => false
  end.

Definition xgtr (a : float) (b : F) : bool :=
  match a with
  | Fin u => b < u
  | PInf => true
  | NInf | NaN => false
  end.

Definition is_finite (a : float) : bool :=
  if a is Fin _ then true else false.

(** [np.sum] of an array of [n] floats. *)
Definition np_sum (n : nat) (a : 'I_n -> float) : float :=
  \big[xadd/Fin 0]_(i < n) a i.

(** A Python number: the [int] a loop starts from, or a [np.float64]. *)
Inductive pynum : Type :=
  | PyInt (k : int)
  | NpFloat (v : float).

Definition pyval (r : pynum) : float :=
  match r with
  | PyInt k => Fin k%:~R
  | NpFloat v => v
  end.

(** [result += v] for a [np.float64] [v]: the sum is a [np.float64]. *)
Definition py_iadd (r : pynum) (v : float) : pynum :=
  NpFloat (xadd (pyval r) v).

(** [result / len(y)]: dividing an [int] by the [int] zero raises, dividing
    a [np.float64] by it does not. *)
Definition py_truediv (r : pynum) (len : nat) : comp float :=
  match r with
  | PyInt k =>
      if len is 0%N then raise ZeroDivisionError
      else ret (Fin (k%:~R / len%:R))
  | NpFloat v => ret (xdiv v len%:R)
  end.

(** [np.linalg.inv(A)]: one inversion; it raises when the solver reports
    a singular matrix. *)
Definition np_linalg_inv (p : nat) (A : 'M[F]_p) : comp 'M[F]_p :=
  (1%N, if gesv A is Some A_inv then Return A_inv else Raise LinAlgError).

(** [h = np.array([np.dot(x_i, np.dot(A_inv, x_i)) for x_i in X])]. *)
Definition hat_diagonal (n p : nat) (A_inv : 'M[F]_p) (X : 'M[F]_(n, p))
  : 'cV[F]_n :=
  \col_i (row i X *m (A_inv *m (row i X)^T)) 0 0.

(** [a[i] = x] on a one-dimensional array, as a value. *)
Definition setitem_row (p : nat) (a : 'rV[F]_p) (i : 'I_p) (x : F)
  : 'rV[F]_p :=
  \row_j if j == i then x else a 0 j.

(** [((y - y_hat) / (1 - h))**2], elementwise. *)
Definition loo_squares (n : nat) (y y_hat h : 'cV[F]_n) (i : 'I_n) : float :=
  xsqr (xdiv (Fin (y i 0 - y_hat i 0)) (1 - h i 0)).

End Float.

Arguments PInf {F}.
Arguments NInf {F}.
Arguments NaN {F}.

(** ** The notebook that states the identity (sums of squares) *)

Module Identity.
Section Identity.

Variable F : realFieldType.
Context {L : lapack F}.
Variables n p : nat.

Definition compute_loocv_slow (X : 'M[F]_(n, p)) (y : 'cV[F]_n)
    (Gamma : 'M[F]_p) : comp (pynum F) :=
  foldM (fun result (i : 'I_n) =>
      let x_i := row i X in
      let y_i := y i 0 in
      let X_mi := row' i X in
      let y_mi := row' i y in
      let A_mi := X_mi^T *m X_mi + Gamma^T *m Gamma in
      A_mi_inv <- np_linalg_inv A_mi ;;
      let b_hat_mi := A_mi_inv *m (X_mi^T *m y_mi) in
      let y_hat_i := (x_i *m b_hat_mi) 0 0 in
      ret (py_iadd result (Fin ((y_i - y_hat_i) ^+ 2))))
    (PyInt F 0) (enum 'I_n).

Definition compute_loocv (X : 'M[F]_(n, p)) (y : 'cV[F]_n)
    (Gamma : 'M[F]_p) : comp (float F) :=
  let A := X^T *m X + Gamma^T *m Gamma in
  A_inv <- np_linalg_inv A ;;
  let b_hat := A_inv *m (X^T *m y) in
  let y_hat := X *m b_hat in
  let h := hat_diagonal A_inv X in
  ret (np_sum (loo_squares y y_hat h)).

End Identity.
End Identity.

(** ** The notebook that checks both estimators (means of squares) *)

Module Verification.
Section Verification.

Variable F : realFieldType.
Context {L : lapack F}.
Variables n p : nat.

Definition compute_loocv_brute_force (X : 'M[F]_(n, p)) (y : 'cV[F]_n)
    (Gamma : 'M[F]_p) : comp (float F) :=
  result <- foldM (fun result (i : 'I_n) =>
      let x_i := row i X in
      let y_i := y i 0 in
      let X_mi := row' i X in
      let y_mi := row' i y in
      let A_mi := X_mi^T *m X_mi + Gamma^T *m Gamma in
      A_mi_inv <- np_linalg_inv A_mi ;;
      let b_hat_mi := A_mi_inv *m (X_mi^T *m y_mi) in
      let y_hat_i := (x_i *m b_hat_mi) 0 0 in
      ret (py_iadd result (Fin ((y_i - y_hat_i) ^+ 2))))
    (PyInt F 0) (enum 'I_n) ;;
  py_truediv result n.

Definition compute_loocv_efficient (X : 'M[F]_(n, p)) (y : 'cV[F]_n)
    (Gamma : 'M[F]_p) : comp (float F) :=
  let A := X^T *m X + Gamma^T *m Gamma in
  A_inv <- np_linalg_inv A ;;
  let b_hat := A_inv *m (X^T *m y) in
  let y_hat := X *m b_hat in
  let h := hat_diagonal A_inv X in
  ret (xdiv (np_sum (loo_squares y y_hat h)) n%:R).

End Verification.
End Verification.

(** ** The notebook on rotations *)

Module Rotations.
Section Rotations.

Variable F : realFieldType.
Context {L : lapack F}.

(** The angles drawn by [np.random.uniform()*2*np.pi], with their cosine
    and sine. *)
Variable angle : Type.
Variables cos sin : angle -> F.

(** [M[r, k] = v] on a fresh array. *)
Definition setitem (n : nat) (M : 'M[F]_n) (r k : nat) (v : F) : 'M[F]_n :=
  \matrix_(a, b) if (a == r :> nat) && (b == k :> nat) then v else M a b.

(** [theta i] is the angle drawn in iteration [i]. *)
Definition generate_rotation_matrix (n : nat) (theta : nat -> angle)
  : 'M[F]_n :=
  foldl (fun result i =>
      let rotation := 1%:M in
      let th := theta i in
      let rotation := setitem rotation i i (cos th) in
      let rotation := setitem rotation i i.+1 (- sin th) in
      let rotation := setitem rotation i.+1 i (sin th) in
      let rotation := setitem rotation i.+1 i.+1 (cos th) in
      result *m rotation)
    1%:M (iota 0 n.-1).

Variables n p : nat.

Definition compute_loocv (X : 'M[F]_(n, p)) (y : 'cV[F]_n)
    (Gamma : 'M[F]_p) : comp (float F) :=
  let A := X^T *m X + Gamma^T *m Gamma in
  A_inv <- np_linalg_inv A ;;
  let b_hat := A_inv *m (X^T *m y) in
  let y_hat := X *m b_hat in
  let h := hat_diagonal A_inv X in
  ret (xdiv (np_sum (loo_squares y y_hat h)) n%:R).

(** The cell that rotates the problem and scores it again. *)
Definition loocv_rotated (rotation_matrix : 'M[F]_n) (X : 'M[F]_(n, p))
    (y : 'cV[F]_n) (Gamma : 'M[F]_p) : comp (float F) :=
  let X_prime := rotation_matrix *m X in
  let y_prime := rotation_matrix *m y in
  compute_loocv X_prime y_prime Gamma.

End Rotations.
End Rotations.

(** ** The simulation notebook *)

Module Simulation.
Section Simulation.

Variable F : realFieldType.
Context {L : lapack F}.

(** The literal [1.0e-3]. *)
Definition float_1e_3 : F := (10%:R ^+ 3)^-1.

Section Training.

Variables n p : nat.

Definition compute_loocv (X : 'M[F]_(n, p)) (y : 'cV[F]_n) (D : 'M[F]_p)
  : comp (float F) :=
  let A := X^T *m X + D in
  A_inv <- np_linalg_inv A ;;
  let b_hat := A_inv *m (X^T *m y) in
  let y_hat := X *m b_hat in
  let h := hat_diagonal A_inv X in
  ret (xdiv (np_sum (loo_squares y y_hat h)) n%:R).

(** The body of the inner loop of both verifiers, for the perturbed value
    [x], the score [f0] at the fitted value and the score function [f]. *)
Definition check_direction (f : F -> comp (float F)) (f0 : float F)
    (delta_x : F) (x : F) : comp unit :=
  let x := `|x| in
  fx <- f x ;;
  let delta_y := xsub fx f0 in
  let relative_delta_y := xdiv delta_y delta_x in
  if xltr relative_delta_y 0 && xgtr (xabs relative_delta_y) float_1e_3
  then raise (AssertionError "can't verify optimum")
  else ret tt.

Definition verify_loocv_opt_1 (X : 'M[F]_(n, p)) (y : 'cV[F]_n) (alpha : F)
  : comp unit :=
  let delta_x := float_1e_3 in
  let f x := compute_loocv X y (x *: 1%:M) in
  f0 <- f alpha ;;
  forM [:: alpha - delta_x; alpha + delta_x] (check_direction f f0 delta_x).

(** [alpha_copy = np.array(alpha); alpha_copy[i] = x], as a value. *)
Definition perturbed (alpha : 'rV[F]_p) (i : 'I_p) (x : F) : 'rV[F]_p :=
  setitem_row alpha i x.

Definition verify_loocv_opt_p (X : 'M[F]_(n, p)) (y : 'cV[F]_n)
    (alpha : 'rV[F]_p) : comp unit :=
  let delta_x := float_1e_3 in
  forM (enum 'I_p) (fun i =>
    let alpha_i := alpha 0 i in
    let f x := compute_loocv X y (diag_mx (perturbed alpha i x)) in
    f0 <- f alpha_i ;;
    forM [:: alpha_i - delta_x; alpha_i + delta_x]
      (check_direction f f0 delta_x)).

(** The regularization argument of the ridge fit: a Python [float] or a
    one-dimensional array. *)
Inductive regularization : Type :=
  | PyFloat (a : F)
  | NdArray (v : 'rV[F]_p).

Definition fit_ridge_regression (X : 'M[F]_(n, p)) (y : 'cV[F]_n)
    (alpha : regularization) : comp 'cV[F]_p :=
  let alpha :=
    match alpha with
    | PyFloat a => a *: const_mx 1
    | NdArray v => v
    end in
  let A := X^T *m X + diag_mx alpha in
  A_inv <- np_linalg_inv A ;;
  ret (A_inv *m (X^T *m y)).

End Training.

(** *** The random problems of the simulation

    [np.random.normal] is a parameter: a draw takes the state of the
    generator and returns an array of the asked shape and the next
    state. *)

Section Data.

Variable p : nat.
Variable beta : 'cV[F]_p.
Variables feature_sigma sigma : F.
Variable rng : Type.
Variable normal : forall m q : nat, F -> rng -> 'M[F]_(m, q) * rng.

Definition generate_feature_matrix (n : nat) (g : rng)
  : 'M[F]_(n, p) * rng :=
  normal n p feature_sigma g.

Definition generate_target_vector (n : nat) (X : 'M[F]_(n, p)) (g : rng)
  : 'cV[F]_n * rng :=
  let y_base := X *m beta in
  let noise := normal n 1 sigma g in
  (y_base + noise.1, noise.2).

(** A training set of [n] observations and one test point. *)
Definition trial (n : nat) : Type :=
  ('M[F]_(n, p) * 'cV[F]_n * 'M[F]_(1, p) * 'cV[F]_1)%type.

Definition generate_simulation_data (n : nat) (g : rng) : trial n * rng :=
  let X_train := generate_feature_matrix n g in
  let y_train := generate_target_vector X_train.1 X_train.2 in
  let X_test := generate_feature_matrix 1 y_train.2 in
  let y_test := generate_target_vector X_test.1 X_test.2 in
  ((X_train.1, y_train.1, X_test.1, y_test.1), y_test.2).

(** The [N] trials of one training size: the inner loop, from the trial
    index and the generator state it is entered with. *)
Definition generate_trials (N n : nat) (trial_index : nat) (g : rng)
  : seq (nat * trial n) * nat * rng :=
  foldl (fun st _ =>
      let: (trials, trial_index, g) := st in
      let d := generate_simulation_data n g in
      (rcons trials (trial_index, d.1), trial_index.+1, d.2))
    ([::], trial_index, g) (iota 0 N).

(** The cell that fills [simulation_data], one list of trials per
    training size. *)
Definition simulation_data (train_sizes : seq nat) (N : nat) (g : rng)
  : seq {n : nat & seq (nat * trial n)} * nat * rng :=
  foldl (fun st n =>
      let: (simulation_data, trial_index, g) := st in
      let: (trials, trial_index, g) := generate_trials N n trial_index g in
      (rcons simulation_data (existT _ n trials), trial_index, g))
    ([::], 0%N, g) train_sizes.

End Data.

(** [np.sqrt] on the non-negative numbers and [scipy.stats.t.interval]
    (with its default [loc]) are library functions: they are parameters. *)
Variable sqrt : F -> F.
Variable t_interval : F -> int -> float F -> float F * float F.

Definition np_sqrt (a : float F) : float F :=
  match a with
  | Fin u => if u < 0 then NaN else Fin (sqrt u)
  | PInf => PInf
  | NInf | NaN => NaN
  end.

(** [np.mean(values)]. *)
Definition np_mean (values : seq F) : float F :=
  xdiv (Fin (\sum_(v <- values) v)) (size values)%:R.

(** [np.std(values, ddof=ddof)]: the deviations from the mean are squared,
    summed and divided by [max(len - ddof, 0)]. *)
Definition np_std (values : seq F) (ddof : nat) : float F :=
  let arrmean := np_mean values in
  let x := [seq xsub (Fin v) arrmean | v <- values] in
  np_sqrt (xdiv (foldr (@xadd F) (Fin 0) [seq xsqr d | d <- x])
                (size values - ddof)%:R).

(** [stddev / np.sqrt(n)]: the divisor is a finite number. *)
Definition standard_error (stddev : float F) (len : nat) : float F :=
  match np_sqrt (Fin len%:R) with
  | Fin r => xdiv stddev r
  | _ => NaN
  end.

Definition compute_simulation_statistics (values : seq F)
  : float F * float F :=
  let len := size values in
  let mean := np_mean values in
  let stddev := np_std values 1 in
  let interval :=
    t_interval (95%:R / 100%:R) (len%:Z - 1) (standard_error stddev len) in
  (mean, interval.2).

End Simulation.
End Simulation.

(** ** Arrays as objects

    NumPy arrays are passed by reference.  The verifiers, the ridge fit and
    the estimators are read here over a heap of arrays, to follow what a
    call does to the arrays of its caller: reading a cell, allocating a new
    array, and the one assignment to an element, [alpha_copy[i] = x]. *)

Module Store.
Section Store.

Variable F : realFieldType.
Context {L : lapack F}.
Variables n p : nat.

Inductive ndarray : Type :=
  | Matrix (X : 'M[F]_(n, p))
  | Target (y : 'cV[F]_n)
  | Params (a : 'rV[F]_p)
  | Square (D : 'M[F]_p).

Definition heap : Type := seq ndarray.

Definition st (T : Type) : Type := heap -> heap * comp T.

Definition st_ret {T : Type} (v : T) : st T := fun h => (h, ret v).

Definition st_bind {T U : Type} (c : st T) (k : T -> st U) : st U :=
  fun h =>
    let r := c h in
    match r.2.2 with
    | Raise e => (r.1, (r.2.1, Raise e))
    | Return v =>
        let r' := k v r.1 in (r'.1, ((r.2.1 + r'.2.1)%N, r'.2.2))
    end.

Notation "x <~ c ;; k" := (st_bind c (fun x => k))
  (at level 100, c at next level, right associativity).

(** A computation that touches no array. *)
Definition lift {T : Type} (c : comp T) : st T := fun h => (h, c).

Fixpoint st_foldM {A B : Type} (body : B -> A -> st B) (acc : B) (s : seq A)
  : st B :=
  match s with
  | [::] => st_ret acc
  | x :: s' => acc' <~ body acc x ;; st_foldM body acc' s'
  end.

Definition st_forM {A : Type} (s : seq A) (body : A -> st unit) : st unit :=
  st_foldM (fun _ x => body x) tt s.

(** The array a reference points to. *)
Definition deref (h : heap) (l : nat) : option ndarray := ohead (drop l h).

(** Reading an argument of the expected shape; another shape raises. *)
Definition read {T : Type} (shape : ndarray -> option T) (l : nat) : st T :=
  fun h =>
    (h, if deref h l is Some a then
          if shape a is Some v then ret v else raise ValueError
        else raise ValueError).

Definition get_matrix : nat -> st 'M[F]_(n, p) :=
  read (fun a => if a is Matrix X then Some X else None).

Definition get_target : nat -> st 'cV[F]_n :=
  read (fun a => if a is Target y then Some y else None).

Definition get_params : nat -> st 'rV[F]_p :=
  read (fun a => if a is Params v then Some v else None).

Definition get_square : nat -> st 'M[F]_p :=
  read (fun a => if a is Square D then Some D else None).

(** A new array, at the next free reference. *)
Definition alloc (a : ndarray) : st nat := fun h => (rcons h a, ret (size h)).

(** [np.array(alpha)]: a copy. *)
Definition np_array (alpha : nat) : st nat :=
  v <~ get_params alpha ;; alloc (Params v).

(** [np.diag(alpha)]: a new square array. *)
Definition np_diag (alpha : nat) : st nat :=
  v <~ get_params alpha ;; alloc (Square (diag_mx v)).

(** [alpha[i]]. *)
Definition getitem (alpha : nat) (i : 'I_p) : st F :=
  v <~ get_params alpha ;; st_ret (v 0 i).

(** [alpha[i] = x]: the array is updated in place. *)
Definition setitem (alpha : nat) (i : 'I_p) (x : F) : st unit :=
  fun h =>
    if deref h alpha is Some (Params v) then
      (set_nth (Params v) h alpha (Params (setitem_row v i x)), ret tt)
    else (h, raise ValueError).

(** A function that only reads its three arguments. *)
Definition call {T : Type}
    (f : 'M[F]_(n, p) -> 'cV[F]_n -> 'M[F]_p -> comp T) (X y D : nat)
  : st T :=
  vX <~ get_matrix X ;;
  vy <~ get_target y ;;
  vD <~ get_square D ;;
  lift (f vX vy vD).

Definition compute_loocv_slow : nat -> nat -> nat -> st (pynum F) :=
  call (@Identity.compute_loocv_slow F L n p).

Definition compute_loocv_brute_force : nat -> nat -> nat -> st (float F) :=
  call (@Verification.compute_loocv_brute_force F L n p).

Definition compute_loocv_efficient : nat -> nat -> nat -> st (float F) :=
  call (@Verification.compute_loocv_efficient F L n p).

Definition compute_loocv : nat -> nat -> nat -> st (float F) :=
  call (@Simulation.compute_loocv F L n p).

Definition check_direction (f : F -> st (float F)) (f0 : float F)
    (delta_x : F) (x : F) : st unit :=
  let x := `|x| in
  fx <~ f x ;;
  let delta_y := xsub fx f0 in
  let relative_delta_y := xdiv delta_y delta_x in
  if xltr relative_delta_y 0
     && xgtr (xabs relative_delta_y) (Simulation.float_1e_3 F)
  then lift (raise (AssertionError "can't verify optimum"))
  else st_ret tt.

Definition verify_loocv_opt_1 (X y : nat) (alpha : F) : st unit :=
  let delta_x := Simulation.float_1e_3 F in
  let f x :=
    D <~ alloc (Square (x *: 1%:M)) ;;
    compute_loocv X y D in
  f0 <~ f alpha ;;
  st_forM [:: alpha - delta_x; alpha + delta_x]
    (check_direction f f0 delta_x).

Definition verify_loocv_opt_p (X y alpha : nat) : st unit :=
  let delta_x := Simulation.float_1e_3 F in
  st_forM (enum 'I_p) (fun i =>
    alpha_i <~ getitem alpha i ;;
    let f x :=
      alpha_copy <~ np_array alpha ;;
      _ <~ setitem alpha_copy i x ;;
      D <~ np_diag alpha_copy ;;
      compute_loocv X y D in
    f0 <~ f alpha_i ;;
    st_forM [:: alpha_i - delta_x; alpha_i + delta_x]
      (check_direction f f0 delta_x)).

(** The regularization argument of the ridge fit: a Python [float] or a
    reference to a one-dimensional array. *)
Inductive regularization : Type :=
  | PyFloat (a : F)
  | Ref (l : nat).

Definition fit_ridge_regression (X y : nat) (alpha : regularization)
  : st 'cV[F]_p :=
  alpha <~ match alpha with
           | PyFloat a => alloc (Params (a *: const_mx 1))
           | Ref l => st_ret l
           end ;;
  D <~ np_diag alpha ;;
  vX <~ get_matrix X ;;
  vy <~ get_target y ;;
  vD <~ get_square D ;;
  lift (A_inv <- np_linalg_inv (vX^T *m vX + vD) ;;
        ret (A_inv *m (vX^T *m vy))).

(** Every array of the heap [h] is an array of [h'], unchanged. *)
Definition unchanged (h h' : heap) : Prop := exists fresh, h' = h ++ fresh.

(** From any heap that keeps the arrays of [h0], the call [c] returns or
    raises as the computation [c0] on values does, and keeps the arrays of
    [h0]. *)
Definition computes {T : Type} (h0 : heap) (c : st T) (c0 : comp T) : Prop :=
  forall h, unchanged h0 h -> (c h).2 = c0 /\ unchanged h0 (c h).1.

(** A call that leaves the arrays of its caller as they are: it may only
    allocate. *)
Definition allocates_only {T : Type} (c : st T) : Prop :=
  forall h, unchanged h (c h).1.

End Store.
End Store.

(** ** The quantities of the specification *)

Section Specification.

Variable F : realFieldType.
Context {L : lapack F}.
Variables n p : nat.

(** A positive definite matrix. *)
Definition posdef (q : nat) (M : 'M[F]_q) : Prop :=
  forall v : 'cV[F]_q, v != 0 -> 0 < (v^T *m M *m v) 0 0.

(** The fitted coefficients [(X^T X + D)^-1 X^T y]. *)
Definition ridge_coefficients (X : 'M[F]_(n, p)) (y : 'cV[F]_n)
    (D : 'M[F]_p) : 'cV[F]_p :=
  invmx (X^T *m X + D) *m X^T *m y.

(** The prediction for observation [i], entry by entry. *)
Definition fitted (X : 'M[F]_(n, p)) (y : 'cV[F]_n) (D : 'M[F]_p)
    (i : 'I_n) : F :=
  \sum_j X i j * ridge_coefficients X y D j 0.

(** The leverage [x_i^T (X^T X + D)^-1 x_i], entry by entry. *)
Definition leverage (X : 'M[F]_(n, p)) (D : 'M[F]_p) (i : 'I_n) : F :=
  \sum_j \sum_k X i j * invmx (X^T *m X + D) j k * X i k.

(** The leave-one-out residual [(y_i - yhat_i) / (1 - h_i)] where it is
    a number. *)
Definition loo_residual (X : 'M[F]_(n, p)) (y : 'cV[F]_n) (D : 'M[F]_p)
    (i : 'I_n) : F :=
  (y i 0 - fitted X y D i) / (1 - leverage X D i).

(** The sum of the squares of the leave-one-out residuals, as NumPy
    evaluates it. *)
Definition loocv_sum (X : 'M[F]_(n, p)) (y : 'cV[F]_n) (D : 'M[F]_p)
  : float F :=
  np_sum (fun i =>
    xsqr (xdiv (Fin (y i 0 - fitted X y D i)) (1 - leverage X D i))).

(** The same sum divided by the number of observations. *)
Definition loocv_mean (X : 'M[F]_(n, p)) (y : 'cV[F]_n) (D : 'M[F]_p)
  : float F :=
  xdiv (loocv_sum X y D) n%:R.

(** The finite-difference slope [(f(x) - f(a)) / delta] of a score. *)
Definition slope (f : F -> float F) (a x delta : F) : float F :=
  xdiv (xsub (f x) (f a)) delta.

(** A slope that is negative, with a magnitude above [1e-3]. *)
Definition steep_descent (s : float F) : bool :=
  xltr s 0 && xgtr (xabs s) (Simulation.float_1e_3 F).

(** The two perturbed values of a parameter [a]. *)
Definition perturbations (a : F) : seq F :=
  [:: a - Simulation.float_1e_3 F; a + Simulation.float_1e_3 F].

(** The score as a function of the shared parameter, and of component
    [i] of the parameter vector with the other components fixed. *)
Definition score_1 (X : 'M[F]_(n, p)) (y : 'cV[F]_n) (x : F) : float F :=
  loocv_mean X y (x *: 1%:M).

Definition score_p (X : 'M[F]_(n, p)) (y : 'cV[F]_n) (alpha : 'rV[F]_p)
    (i : 'I_p) (x : F) : float F :=
  loocv_mean X y (diag_mx (setitem_row alpha i x)).

(** The values at which a verifier scores the parameter [a]. *)
Definition evaluation_points (a : F) : seq F :=
  a :: [seq `|x| | x <- perturbations a].

(** The message of the failed assertion. *)
Definition cannot_verify : exn := AssertionError "can't verify optimum".

(** The planar rotation of iteration [i] of [generate_rotation_matrix],
    for the cosine [c] and the sine [s] of the angle drawn. *)
Definition planar_rotation (m i : nat) (c s : F) : 'M[F]_m :=
  Rotations.setitem
    (Rotations.setitem
       (Rotations.setitem (Rotations.setitem 1%:M i i c) i i.+1 (- s))
       i.+1 i s)
    i.+1 i.+1 c.

(** The column of two observations [v0], [v1]. *)
Definition col2 (v0 v1 : F) : 'cV[F]_2 := \col_i nth 0 [:: v0; v1] i.

(** One refit of the brute-force loop. *)
Definition refit (X : 'M[F]_(n, p)) (y : 'cV[F]_n) (Gamma : 'M[F]_p)
    (result : pynum F) (i : 'I_n) : comp (pynum F) :=
  A_mi_inv <- np_linalg_inv ((row' i X)^T *m row' i X + Gamma^T *m Gamma) ;;
  ret (py_iadd result
         (Fin ((y i 0 - (row i X *m (A_mi_inv *m ((row' i X)^T *m row' i y)))
                          0 0) ^+ 2))).

End Specification.

(** ** Linear algebra: removing one observation *)

Section Downdate.

Variable F : fieldType.

Lemma gram_row' (n p q : nat) (i : 'I_n) (X : 'M[F]_(n, p))
    (Y : 'M[F]_(n, q)) :
  (row' i X)^T *m row' i Y = X^T *m Y - (row i X)^T *m row i Y.
Proof.
apply/matrixP => a b; rewrite !mxE (bigD1_ord i) //= big_ord1 !mxE.
rewrite addrC addKr.
by apply: eq_bigr => k _; rewrite !mxE.
Qed.

Variables (p : nat) (A : 'M[F]_p) (x : 'rV[F]_p).
Hypothesis A_unit : A \in unitmx.

Let h : F := (x *m (invmx A *m x^T)) 0 0.
Let u : 'cV[F]_p := invmx A *m x^T.

Lemma leverage_scalar : x *m (invmx A *m x^T) = h%:M.
Proof. by rewrite [LHS]mx11_scalar. Qed.

Lemma downdate_mul (c : F) :
  (A - x^T *m x) *m (invmx A + c *: (u *m (x *m invmx A))) =
  1%:M + (c * (1 - h) - 1) *: (x^T *m (x *m invmx A)).
Proof.
have Au : A *m u = x^T by rewrite /u mulmxA mulmxV // mul1mx.
have xu : x *m u = h%:M by rewrite /u leverage_scalar.
rewrite mulmxDr !mulmxBl mulmxV // -!scalemxAr.
rewrite (mulmxA A) Au -(mulmxA x^T x (invmx A)).
rewrite -(mulmxA x^T x (u *m _)) (mulmxA x u) xu mul_scalar_mx -scalemxAr.
set M := x^T *m (x *m invmx A).
rewrite scalerA scalerBl scale1r mulrBr mulr1 scalerBl -!addrA.
by congr (_ + _); rewrite addrC -addrA.
Qed.

(** Sherman-Morrison: the matrix without the observation is invertible
    when the leverage is not one. *)
Lemma downdate_unit : h != 1 -> A - x^T *m x \in unitmx.
Proof.
move=> h1.
have d0 : 1 - h != 0 by rewrite subr_eq0 eq_sym.
have := downdate_mul (1 - h)^-1.
by rewrite mulVf // subrr scale0r addr0; case/mulmx1_unit.
Qed.

Lemma downdate_inv :
  h != 1 ->
  invmx (A - x^T *m x) = invmx A + (1 - h)^-1 *: (u *m (x *m invmx A)).
Proof.
move=> h1.
have d0 : 1 - h != 0 by rewrite subr_eq0 eq_sym.
have := downdate_mul (1 - h)^-1.
rewrite mulVf // subrr scale0r addr0 => E.
have U := downdate_unit h1.
by rewrite -[RHS]mul1mx -(mulVmx U) -mulmxA E mulmx1.
Qed.

(** It is singular when the leverage is one. *)
Lemma downdate_singular : h = 1 -> A - x^T *m x \notin unitmx.
Proof.
move=> h1; apply/negP => U.
have Au : A *m u = x^T by rewrite /u mulmxA mulmxV // mul1mx.
have xu : x *m u = h%:M by rewrite /u leverage_scalar.
have K : (A - x^T *m x) *m u = 0.
  by rewrite mulmxBl Au -mulmxA xu h1 mulmx1 subrr.
have u0 : u = 0 by rewrite -[u]mul1mx -(mulVmx U) -mulmxA K mulmx0.
have : h%:M = (0 : 'M[F]_1) by rewrite -xu u0 mulmx0.
move/matrixP/(_ 0 0); rewrite !mxE h1 /= => /eqP.
by rewrite mulr1n oner_eq0.
Qed.

(** The leave-one-out residual is the residual of the full fit divided by
    one minus the leverage. *)
Lemma downdate_residual (c : 'cV[F]_p) (y_i : F) :
  h != 1 ->
  y_i - (x *m (invmx (A - x^T *m x) *m (c - x^T *m y_i%:M))) 0 0 =
  (y_i - (x *m (invmx A *m c)) 0 0) / (1 - h).
Proof.
move=> h1.
have d0 : 1 - h != 0 by rewrite subr_eq0 eq_sym.
have xu : x *m u = h%:M by rewrite /u leverage_scalar.
rewrite downdate_inv // mulmxDl mulmxDr -scalemxAl -scalemxAr.
set c' := c - _.
have -> : x *m (u *m (x *m invmx A) *m c') = h *: (x *m (invmx A *m c')).
  by rewrite -(mulmxA u) (mulmxA x u) xu mul_scalar_mx -(mulmxA x).
have -> : x *m (invmx A *m c') = x *m (invmx A *m c) - (h * y_i)%:M.
  rewrite /c' !mulmxBr (mulmxA (invmx A)) -/u (mulmxA x u) xu.
  by rewrite -scalar_mxM.
rewrite !mxE /= !mulr1n.
by field.
Qed.

End Downdate.

(** ** The two estimators *)

Section Estimators.

Variable F : realFieldType.
Context {L : lapack F}.
Variables n p : nat.
Implicit Types (X : 'M[F]_(n, p)) (y : 'cV[F]_n) (D Gamma : 'M[F]_p).

Lemma np_linalg_inv_unit (q : nat) (A : 'M[F]_q) :
  A \in unitmx -> np_linalg_inv A = (1%N, Return (invmx A)).
Proof. by rewrite /np_linalg_inv => /gesv_unit ->. Qed.

Lemma np_linalg_inv_zero (q : nat) :
  np_linalg_inv (0 : 'M[F]_q.+1) = (1%N, Raise LinAlgError).
Proof. by rewrite /np_linalg_inv gesv_zero. Qed.

Lemma np_sum_finite (m : nat) (t : 'I_m -> F) :
  np_sum (fun i => Fin (t i)) = Fin (\sum_i t i).
Proof.
rewrite /np_sum; elim/big_rec2: _ => // i a b _ ->.
by [].
Qed.

Lemma hat_diagonalE X D i :
  hat_diagonal (invmx (X^T *m X + D)) X i 0 = leverage X D i.
Proof.
rewrite /hat_diagonal /leverage !mxE.
apply: eq_bigr => j _; rewrite !mxE big_distrr /=.
by apply: eq_bigr => k _; rewrite !mxE mulrA.
Qed.

Lemma fittedE X y D i :
  (X *m (invmx (X^T *m X + D) *m (X^T *m y))) i 0 = fitted X y D i.
Proof. by rewrite /fitted /ridge_coefficients mxE -mulmxA. Qed.

Lemma row_fittedE X y D i :
  (row i X *m (invmx (X^T *m X + D) *m (X^T *m y))) 0 0 = fitted X y D i.
Proof. by rewrite -fittedE -row_mul mxE. Qed.

Lemma row_leverageE X D i :
  (row i X *m (invmx (X^T *m X + D) *m (row i X)^T)) 0 0 = leverage X D i.
Proof. by rewrite -hat_diagonalE [RHS]mxE. Qed.

Lemma loo_squaresE X y D i :
  let A_inv := invmx (X^T *m X + D) in
  loo_squares y (X *m (A_inv *m (X^T *m y))) (hat_diagonal A_inv X) i =
  xsqr (xdiv (Fin (y i 0 - fitted X y D i)) (1 - leverage X D i)).
Proof. by rewrite /loo_squares /= fittedE hat_diagonalE. Qed.

Lemma loocv_sum_finite X y D :
  (forall i, leverage X D i != 1) ->
  loocv_sum X y D = Fin (\sum_i loo_residual X y D i ^+ 2).
Proof.
move=> h1; rewrite /loocv_sum -np_sum_finite; apply: eq_bigr => i _.
by rewrite /xdiv subr_eq0 eq_sym h1.
Qed.

Lemma row_target y (i : 'I_n) : row i y = (y i 0)%:M.
Proof. by apply/matrixP => a b; rewrite !ord1 !mxE. Qed.

Lemma refit_matrix X Gamma (i : 'I_n) :
  (row' i X)^T *m row' i X + Gamma^T *m Gamma =
  X^T *m X + Gamma^T *m Gamma - (row i X)^T *m row i X.
Proof. by rewrite gram_row' addrAC. Qed.

Lemma refit_return X y Gamma (r : pynum F) (i : 'I_n) :
  let D := Gamma^T *m Gamma in
  X^T *m X + D \in unitmx -> leverage X D i != 1 ->
  refit X y Gamma r i =
  (1%N, Return (py_iadd r (Fin (loo_residual X y D i ^+ 2)))).
Proof.
move=> D A_unit h1; rewrite /refit refit_matrix.
have h1' : (row i X *m (invmx (X^T *m X + D) *m (row i X)^T)) 0 0 != 1.
  by rewrite row_leverageE.
rewrite (np_linalg_inv_unit (downdate_unit A_unit h1')).
rewrite /bind /= gram_row' row_target.
rewrite (downdate_residual A_unit _ _ h1').
by rewrite row_fittedE row_leverageE.
Qed.

(** The refit without the only observation of an unregularized problem
    inverts the zero matrix. *)
Lemma refit_nothing (q : nat) (X1 : 'M[F]_(1, q.+1)) (y1 : 'cV[F]_1)
    (Gamma : 'M[F]_q.+1) (r : pynum F) (i : 'I_1) :
  Gamma^T *m Gamma = 0 -> refit X1 y1 Gamma r i = (1%N, Raise LinAlgError).
Proof.
move=> G0; rewrite /refit G0 [row' i X1]flatmx0 mulmx0 addr0.
by rewrite np_linalg_inv_zero.
Qed.

Lemma brute_loop X y Gamma (s : seq 'I_n) (r : pynum F) (a : F) :
  let D := Gamma^T *m Gamma in
  X^T *m X + D \in unitmx -> (forall i, leverage X D i != 1) ->
  pyval r = Fin a ->
  exists2 r', foldM (refit X y Gamma) r s = (size s, Return r')
            & pyval r' = Fin (a + \sum_(i <- s) loo_residual X y D i ^+ 2).
Proof.
move=> D A_unit h1; elim: s r a => [|i s IH] r a ra.
  by exists r; rewrite // big_nil addr0.
have [|r' Er' Pr'] := IH (py_iadd r (Fin (loo_residual X y D i ^+ 2)))
                        (a + loo_residual X y D i ^+ 2).
  by rewrite /= ra.
exists r'; last by rewrite Pr' big_cons addrA.
by rewrite /= refit_return // /bind /= Er'.
Qed.

Lemma py_truediv_finite (r : pynum F) (a : F) (m : nat) :
  pyval r = Fin a -> (0 < m)%N ->
  py_truediv r m = (0%N, Return (Fin (a / m%:R))).
Proof.
case: m => // m; case: r => [k|v] /= ra _.
  by case: ra => ->.
by rewrite ra /= pnatr_eq0.
Qed.

Lemma compute_loocv_slowE X y Gamma :
  Identity.compute_loocv_slow X y Gamma =
  foldM (refit X y Gamma) (PyInt F 0) (enum 'I_n).
Proof. by []. Qed.

Lemma compute_loocv_brute_forceE X y Gamma :
  Verification.compute_loocv_brute_force X y Gamma =
  (result <- foldM (refit X y Gamma) (PyInt F 0) (enum 'I_n) ;;
   py_truediv result n).
Proof. by []. Qed.

Lemma efficient_sum X y D :
  X^T *m X + D \in unitmx ->
  (A_inv <- np_linalg_inv (X^T *m X + D) ;;
   ret (np_sum (loo_squares y (X *m (A_inv *m (X^T *m y)))
                  (hat_diagonal A_inv X)))) =
  (1%N, Return (loocv_sum X y D)).
Proof.
move=> A_unit; rewrite np_linalg_inv_unit // /bind /=; congr (_, Return _).
by apply: eq_bigr => i _; rewrite loo_squaresE.
Qed.

Lemma efficient_mean X y D :
  X^T *m X + D \in unitmx ->
  (A_inv <- np_linalg_inv (X^T *m X + D) ;;
   ret (xdiv (np_sum (loo_squares y (X *m (A_inv *m (X^T *m y)))
                        (hat_diagonal A_inv X))) n%:R)) =
  (1%N, Return (loocv_mean X y D)).
Proof.
move=> A_unit; rewrite np_linalg_inv_unit // /bind /=.
congr (_, Return (xdiv _ _)).
by apply: eq_bigr => i _; rewrite loo_squaresE.
Qed.

End Estimators.

(** C1 (amended).  When [X^T X + Gamma^T Gamma] is invertible and no
    leverage equals one, the brute-force estimator ([n] refits) and the
    efficient estimator (one inversion) return the same finite score, the
    sum of the squared leave-one-out residuals; with at least one
    observation, so do the two estimators that report the mean. *)
Theorem loocv_equivalence (F : realFieldType) (L : lapack F) (n p : nat)
    (X : 'M[F]_(n, p)) (y : 'cV[F]_n) (Gamma : 'M[F]_p) :
  let D := Gamma^T *m Gamma in
  let s := \sum_i loo_residual X y D i ^+ 2 in
  X^T *m X + D \in unitmx ->
  (forall i, leverage X D i != 1) ->
  [/\ exists2 r, Identity.compute_loocv_slow X y Gamma = (n, Return r)
               & pyval r = Fin s,
      Identity.compute_loocv X y Gamma = (1%N, Return (Fin s))
    & (0 < n)%N ->
      Verification.compute_loocv_brute_force X y Gamma =
        (n, Return (Fin (s / n%:R))) /\
      Verification.compute_loocv_efficient X y Gamma =
        (1%N, Return (Fin (s / n%:R)))].
Proof.
move=> D s A_unit h1.
have [r Er Pr] :=
  @brute_loop F L n p X y Gamma (enum 'I_n) (PyInt F 0) 0 A_unit h1 erefl.
rewrite size_enum_ord add0r big_enum /= -/s in Er Pr.
split; first by exists r.
  by rewrite /Identity.compute_loocv efficient_sum // loocv_sum_finite.
move=> n0; split.
  rewrite compute_loocv_brute_forceE Er /bind /=.
  by rewrite (py_truediv_finite Pr n0) addn0.
rewrite /Verification.compute_loocv_efficient efficient_mean //.
by rewrite /loocv_mean loocv_sum_finite //= pnatr_eq0 -lt0n n0.
Qed.

(** ** One observation, one feature *)

Section ScalarProblem.

Variable F : realFieldType.
Context {L : lapack F}.
Variables x t d : F.
Let X : 'M[F]_(1, 1) := x%:M.
Let y : 'cV[F]_1 := t%:M.
Let D : 'M[F]_1 := d%:M.

Lemma scalar_gram : X^T *m X + D = (x * x + d)%:M.
Proof. by rewrite /X /D tr_scalar_mx -scalar_mxM -raddfD. Qed.

Lemma scalar_unit : (X^T *m X + D \in unitmx) = (x * x + d != 0).
Proof. by rewrite scalar_gram unitmxE det_scalar1 unitfE. Qed.

Lemma scalar_leverage i : leverage X D i = x * (x * x + d)^-1 * x.
Proof.
rewrite /leverage big_ord1 big_ord1 scalar_gram invmx_scalar !ord1 !mxE /=.
by rewrite !mulr1n.
Qed.

Lemma scalar_fitted i : fitted X y D i = x * ((x * x + d)^-1 * x * t).
Proof.
rewrite /fitted /ridge_coefficients big_ord1 scalar_gram invmx_scalar.
by rewrite tr_scalar_mx -!scalar_mxM !ord1 !mxE /= !mulr1n.
Qed.

Lemma scalar_sum :
  loocv_sum X y D =
  xsqr (xdiv (Fin (t - x * ((x * x + d)^-1 * x * t)))
          (1 - x * (x * x + d)^-1 * x)).
Proof.
rewrite /loocv_sum /np_sum big_ord_recl big_ord0 scalar_fitted scalar_leverage.
rewrite /y mxE /= mulr1n.
by case: (xsqr _) => //= v; rewrite addr0.
Qed.

End ScalarProblem.

Lemma scalar_regularization (F : realFieldType) (g : F) :
  (g%:M : 'M[F]_1)^T *m g%:M = (g * g)%:M.
Proof. by rewrite tr_scalar_mx -scalar_mxM. Qed.

Lemma scalar_penalty (F : realFieldType) (x g : F) :
  (x%:M : 'M[F]_1)^T *m x%:M + (g%:M : 'M[F]_1)^T *m g%:M =
  (x%:M : 'M[F]_1)^T *m x%:M + (g * g)%:M.
Proof. by rewrite (scalar_regularization g). Qed.

Lemma enum_ord1 : enum 'I_1 = [:: ord0].
Proof. by rewrite enum_ordSl (size0nil (size_enum_ord 0)). Qed.

(** C1, counterexample.  With [X = [[1]]], [y = [1]] and [Gamma = [[0]]]
    the matrix [X^T X + Gamma^T Gamma] is invertible, the efficient
    estimator returns a NaN and the brute-force estimator, which inverts
    the zero matrix, raises. *)
Lemma loocv_equivalence_fails :
  let L := exact_elimination rat in
  let X : 'M[rat]_(1, 1) := 1%:M in
  let y : 'cV[rat]_1 := 1%:M in
  let Gamma : 'M[rat]_1 := 0%:M in
  [/\ X^T *m X + Gamma^T *m Gamma \in unitmx,
      Identity.compute_loocv X y Gamma = (1%N, Return NaN)
    & Identity.compute_loocv_slow X y Gamma = (1%N, Raise LinAlgError)].
Proof.
move=> L X y Gamma; rewrite /X /y /Gamma.
have U : X^T *m X + Gamma^T *m Gamma \in unitmx.
  rewrite /X /Gamma.
  by rewrite scalar_penalty scalar_unit.
rewrite /X /y /Gamma in U *.
split=> //.
  rewrite /Identity.compute_loocv efficient_sum //.
  by rewrite (scalar_regularization (0 : rat)) scalar_sum.
rewrite compute_loocv_slowE enum_ord1 /= refit_nothing //.
by rewrite (scalar_regularization (0 : rat)) mulr0 raddf0.
Qed.

(** The hypotheses of C1 hold for [X = [[1]]], [y = [1]], [Gamma = [[1]]]. *)
Lemma loocv_equivalence_witness :
  let L := exact_elimination rat in
  let X : 'M[rat]_(1, 1) := 1%:M in
  let y : 'cV[rat]_1 := 1%:M in
  let Gamma : 'M[rat]_1 := 1%:M in
  Identity.compute_loocv X y Gamma =
  (1%N, Return (Fin (\sum_i loo_residual X y (Gamma^T *m Gamma) i ^+ 2))).
Proof.
move=> L X y Gamma; rewrite /X /y /Gamma.
have U : X^T *m X + Gamma^T *m Gamma \in unitmx.
  by rewrite /X /Gamma scalar_penalty scalar_unit.
have H i : leverage X (Gamma^T *m Gamma) i != 1.
  by rewrite /X /Gamma scalar_regularization scalar_leverage.
by have [] := loocv_equivalence L y U H.
Defined.

(** ** Positive definite regularization *)

Section PositiveDefinite.
Variable F : realFieldType.
Context {L : lapack F}.

Lemma quad_gram (m q : nat) (M : 'M[F]_(m, q)) (v : 'cV[F]_q) :
  (v^T *m (M^T *m M) *m v) 0 0 = \sum_i ((M *m v) i 0) ^+ 2.
Proof.
rewrite mulmxA -trmx_mul -mulmxA mxE.
by apply: eq_bigr => i _; rewrite mxE expr2.
Qed.

Lemma quad_gram_ge0 (m q : nat) (M : 'M[F]_(m, q)) (v : 'cV[F]_q) :
  0 <= (v^T *m (M^T *m M) *m v) 0 0.
Proof. by rewrite quad_gram sumr_ge0 // => i _; rewrite sqr_ge0. Qed.

Lemma quad_gram_entry (m q : nat) (M : 'M[F]_(m, q)) (v : 'cV[F]_q) i :
  ((M *m v) i 0) ^+ 2 <= (v^T *m (M^T *m M) *m v) 0 0.
Proof.
rewrite quad_gram (bigD1 i) //= lerDl sumr_ge0 // => k _.
by rewrite sqr_ge0.
Qed.

Lemma quadD (q : nat) (M N : 'M[F]_q) (v : 'cV[F]_q) :
  (v^T *m (M + N) *m v) 0 0 = (v^T *m M *m v) 0 0 + (v^T *m N *m v) 0 0.
Proof. by rewrite mulmxDr mulmxDl mxE. Qed.

Lemma posdef_unit (q : nat) (M : 'M[F]_q) : posdef M -> M \in unitmx.
Proof.
move=> pd; rewrite -row_free_unit -kermx_eq0; apply/negPn/negP.
case/rowV0Pn => v /sub_kermxP vM v0.
have /pd : v^T != 0 by rewrite -trmx0 (inj_eq trmx_inj).
by rewrite trmxK vM mul0mx mxE ltxx.
Qed.

Lemma posdef_regularized (m q : nat) (X : 'M[F]_(m, q)) (D : 'M[F]_q) :
  posdef D -> posdef (X^T *m X + D).
Proof.
move=> pd v v0; rewrite quadD.
by rewrite ltr_wpDl ?quad_gram_ge0 // pd.
Qed.

Lemma gram_eq0 (m q : nat) (M : 'M[F]_(m, q)) (v : 'cV[F]_q) :
  (v^T *m (M^T *m M) *m v) 0 0 = 0 -> M *m v = 0.
Proof.
rewrite quad_gram => /eqP.
rewrite psumr_eq0 => [i _|/allP z]; first by rewrite sqr_ge0.
apply/matrixP => i j; rewrite !ord1 [RHS]mxE; apply/eqP.
rewrite -sqrf_eq0.
by apply: (implyP (z i _)); rewrite // mem_index_enum.
Qed.

Lemma posdef_gram (q : nat) (Gamma : 'M[F]_q) :
  Gamma \in unitmx -> posdef (Gamma^T *m Gamma).
Proof.
move=> U v v0; rewrite lt_neqAle quad_gram_ge0 andbT eq_sym.
apply: contraNneq v0 => /gram_eq0 Gv.
by rewrite -[v]mul1mx -(mulVmx U) -mulmxA Gv mulmx0.
Qed.

Lemma posdef_scalar (d : F) : 0 < d -> posdef (d%:M : 'M[F]_1).
Proof.
move=> d0 v v0.
have nz : v 0 0 != 0.
  apply: contraNneq v0 => z; rewrite [v]mx11_scalar z.
  by apply/eqP/matrixP => i j; rewrite !mxE mul0rn.
have v2 : 0 < v 0 0 ^+ 2 by rewrite lt0r sqrf_eq0 nz sqr_ge0.
rewrite [v]mx11_scalar tr_scalar_mx -!scalar_mxM mxE /= mulr1n.
by rewrite mulrAC -expr2 mulr_gt0.
Qed.

Lemma leverage_range (n p : nat) (X : 'M[F]_(n, p)) (D : 'M[F]_p) (i : 'I_n) :
  posdef D -> 0 <= leverage X D i < 1.
Proof.
move=> pd; set A := X^T *m X + D.
have U : A \in unitmx by apply/posdef_unit/posdef_regularized.
rewrite -row_leverageE -/A.
set x := row i X; set u := invmx A *m x^T; set h := (x *m u) 0 0.
have Au : A *m u = x^T by rewrite /u mulmxA mulmxV // mul1mx.
have hq : h = (u^T *m A *m u) 0 0.
  by rewrite -mulmxA Au -trmx_mul mxE.
have hX : (X *m u) i 0 = h by rewrite /h /x -row_mul [RHS]mxE.
have [u0|u0] := eqVneq u 0.
  by rewrite /h u0 mulmx0 mxE lexx ltr01.
have qD : 0 < (u^T *m D *m u) 0 0 by apply: pd.
have h2 : h ^+ 2 + (u^T *m D *m u) 0 0 <= h.
  by rewrite {2}hq quadD lerD2r -hX quad_gram_entry.
have h0 : 0 < h.
  by apply: lt_le_trans h2; rewrite ltr_wpDl // sqr_ge0.
rewrite (ltW h0) /= -subr_gt0 -(pmulr_rgt0 _ h0) mulrBr mulr1 -expr2 subr_gt0.
by apply: lt_le_trans h2; rewrite ltrDl.
Qed.

End PositiveDefinite.

(** ** The contract of the efficient estimator *)

(** C2.  When [A = X^T X + D] is invertible the efficient estimator inverts
    [A] once and returns the sum over the observations of
    [((y_i - yhat_i) / (1 - h_i))^2], divided by [n] in the notebooks that
    report the mean, where [yhat = X (A^-1 X^T y)] and
    [h_i = x_i^T A^-1 x_i]; where no leverage is one this is the sum of the
    squared quotients as numbers. *)
Theorem efficient_loocv_contract (F : realFieldType) (L : lapack F)
    (n p : nat)
    (X : 'M[F]_(n, p)) (y : 'cV[F]_n) (D : 'M[F]_p) :
  X^T *m X + D \in unitmx ->
  [/\ Simulation.compute_loocv X y D =
        (1%N, Return (xdiv (loocv_sum X y D) n%:R)),
      forall Gamma, D = Gamma^T *m Gamma ->
        Identity.compute_loocv X y Gamma = (1%N, Return (loocv_sum X y D))
    & (forall i, leverage X D i != 1) ->
      loocv_sum X y D =
      Fin (\sum_i ((y i 0 - fitted X y D i) / (1 - leverage X D i)) ^+ 2)].
Proof.
move=> A_unit; split.
- by rewrite /Simulation.compute_loocv efficient_mean.
- by move=> Gamma DG; rewrite /Identity.compute_loocv -DG efficient_sum.
- exact: loocv_sum_finite.
Qed.

(** The hypothesis of C2 holds for [X = [[1]]], [y = [1]], [D = [[1]]]. *)
Lemma efficient_loocv_contract_witness :
  let L := exact_elimination rat in
  let X : 'M[rat]_(1, 1) := 1%:M in
  let y : 'cV[rat]_1 := 1%:M in
  let D : 'M[rat]_1 := 1%:M in
  X^T *m X + D \in unitmx /\
  Simulation.compute_loocv X y D = (1%N, Return (xdiv (loocv_sum X y D) 1%:R)).
Proof.
move=> L X y D.
have U : X^T *m X + D \in unitmx by rewrite /X /D scalar_unit.
by split=> //; have [] := efficient_loocv_contract L y U.
Defined.

(** ** The leverages *)

(** C5.  When [X^T X + Gamma^T Gamma] and [Gamma^T Gamma] are positive
    definite, the inversion of the efficient estimator succeeds and every
    leverage [h_i] it computes satisfies [0 <= h_i < 1]. *)
Theorem leverage_bound (F : realFieldType) (L : lapack F) (n p : nat)
    (X : 'M[F]_(n, p)) (Gamma : 'M[F]_p) :
  posdef (X^T *m X + Gamma^T *m Gamma) -> posdef (Gamma^T *m Gamma) ->
  exists2 A_inv,
    np_linalg_inv (X^T *m X + Gamma^T *m Gamma) = (1%N, Return A_inv)
    & forall i, 0 <= hat_diagonal A_inv X i 0 < 1.
Proof.
move=> pdA pdG; exists (invmx (X^T *m X + Gamma^T *m Gamma)).
  exact/np_linalg_inv_unit/posdef_unit.
by move=> i; rewrite hat_diagonalE leverage_range.
Qed.

(** The hypotheses of C5 hold for [X = [[1]]] and [Gamma = [[1]]]. *)
Lemma leverage_bound_witness :
  let L := exact_elimination rat in
  let X : 'M[rat]_(1, 1) := 1%:M in
  let Gamma : 'M[rat]_1 := 1%:M in
  [/\ posdef (X^T *m X + Gamma^T *m Gamma), posdef (Gamma^T *m Gamma)
    & exists2 A_inv,
        np_linalg_inv (X^T *m X + Gamma^T *m Gamma) = (1%N, Return A_inv)
        & forall i, 0 <= hat_diagonal A_inv X i 0 < 1].
Proof.
move=> L X Gamma.
have pdG : posdef (Gamma^T *m Gamma).
  by rewrite /Gamma scalar_regularization; apply: posdef_scalar.
have pdA : posdef (X^T *m X + Gamma^T *m Gamma).
  exact: posdef_regularized.
by split=> //; apply: leverage_bound.
Defined.

(** ** Singular designs *)

Section Singular.

Variable F : realFieldType.
Context {L : lapack F}.
Variables n p : nat.
Implicit Types (X : 'M[F]_(n, p)) (y : 'cV[F]_n) (D Gamma : 'M[F]_p).

(** The regularized matrix is zero only for a zero design without
    regularization. *)
Lemma gram_sum_eq0 X Gamma :
  X^T *m X + Gamma^T *m Gamma = 0 -> X = 0 /\ Gamma^T *m Gamma = 0.
Proof.
move=> A0.
have Xv (v : 'cV[F]_p) : X *m v = 0.
  have : (v^T *m (X^T *m X + Gamma^T *m Gamma) *m v) 0 0 = 0.
    by rewrite A0 mulmx0 mul0mx mxE.
  rewrite quadD => /eqP; rewrite paddr_eq0 ?quad_gram_ge0 //.
  by case/andP => /eqP/gram_eq0.
have X0 : X = 0.
  apply/matrixP => i j; rewrite [RHS]mxE.
  have := congr1 (fun M : 'cV[F]_n => M i 0) (Xv (delta_mx j 0)).
  by rewrite -colE !mxE.
by split=> //; move: A0; rewrite X0 mulmx0 add0r.
Qed.

(** The estimators add no check to the solver. *)
Lemma efficient_guard (T : Type) (A : 'M[F]_p) (k : 'M[F]_p -> T) (e : exn) :
  result (A_inv <- np_linalg_inv A ;; ret (k A_inv)) = Raise e <->
  result (np_linalg_inv A) = Raise e.
Proof.
rewrite /bind /result; case: (np_linalg_inv A) => c [e'|B] /=.
  by split=> -[->].
by split.
Qed.

End Singular.

Lemma zero_design_raise (F : realFieldType) (L : lapack F) (n p : nat)
    (X : 'M[F]_(n, p)) (y : 'cV[F]_n) (Gamma : 'M[F]_p) :
  X^T *m X + Gamma^T *m Gamma = 0 -> (0 < p)%N ->
  Identity.compute_loocv X y Gamma = (1%N, Raise LinAlgError) /\
  ((0 < n)%N ->
   Identity.compute_loocv_slow X y Gamma = (1%N, Raise LinAlgError)).
Proof.
case: p X Gamma => // q X Gamma A0 _; split.
  by rewrite /Identity.compute_loocv A0 np_linalg_inv_zero.
case: n X y A0 => // m X y A0 _.
have [X0 G0] := gram_sum_eq0 A0.
rewrite compute_loocv_slowE enum_ordSl /= /refit G0 X0.
have -> : row' ord0 (0 : 'M[F]_(m.+1, q.+1)) = 0.
  by apply/matrixP => i j; rewrite !mxE.
by rewrite mulmx0 addr0 np_linalg_inv_zero.
Qed.

(** C6 (amended).  The estimators carry no check of their own: the
    efficient estimators raise exactly when [np.linalg.inv] raises on the
    regularized matrix, and with its error.  The solver does raise on the
    zero matrix, that is for a zero design without regularization, and so
    does then the brute-force estimator when there is an observation; for
    another singular matrix the outcome is the solver's, which may miss the
    zero pivot.  When the matrix is invertible the efficient estimator
    returns, and where moreover no leverage is one both estimators return
    the same finite number. *)
Theorem singular_design (F : realFieldType) (L : lapack F) (n p : nat)
    (X : 'M[F]_(n, p)) (y : 'cV[F]_n) (Gamma : 'M[F]_p) :
  let D := Gamma^T *m Gamma in
  [/\ forall e,
        result (Identity.compute_loocv X y Gamma) = Raise e <->
        result (np_linalg_inv (X^T *m X + D)) = Raise e,
      X^T *m X + D = 0 -> (0 < p)%N ->
        result (Identity.compute_loocv X y Gamma) = Raise LinAlgError /\
        ((0 < n)%N ->
         result (Identity.compute_loocv_slow X y Gamma) = Raise LinAlgError),
      X^T *m X + D \in unitmx ->
        exists v, result (Identity.compute_loocv X y Gamma) = Return v,
      X^T *m X + D \in unitmx -> (forall i, leverage X D i != 1) ->
        exists s,
          result (Identity.compute_loocv X y Gamma) = Return (Fin s) /\
          exists2 r,
            result (Identity.compute_loocv_slow X y Gamma) = Return r
            & pyval r = Fin s
    & forall D' e,
        result (Simulation.compute_loocv X y D') = Raise e <->
        result (np_linalg_inv (X^T *m X + D')) = Raise e].
Proof.
move=> D; split.
- by move=> e; apply: efficient_guard.
- move=> A0 p0; have [E Es] := zero_design_raise L y A0 p0.
  by split=> [|n0]; rewrite ?E ?Es.
- move=> U; exists (loocv_sum X y D).
  by rewrite /Identity.compute_loocv efficient_sum.
- move=> U h1; exists (\sum_i loo_residual X y D i ^+ 2); split.
    by rewrite /Identity.compute_loocv efficient_sum // loocv_sum_finite.
  have [r Er Pr] :=
    @brute_loop F L n p X y Gamma (enum 'I_n) (PyInt F 0) 0 U h1 erefl.
  by exists r; rewrite ?compute_loocv_slowE ?Er // Pr add0r big_enum.
- by move=> D' e; apply: efficient_guard.
Qed.

(** C6, counterexample.  With [X = [[1]]], [y = [2]] and [Gamma = [[0]]]
    the matrix [X^T X + Gamma^T Gamma] is invertible; the efficient
    estimator returns a NaN and the brute-force estimator, which inverts
    the zero matrix, raises. *)
Lemma singular_design_fails :
  let L := exact_elimination rat in
  let X : 'M[rat]_(1, 1) := 1%:M in
  let y : 'cV[rat]_1 := 2%:R%:M in
  let Gamma : 'M[rat]_1 := 0%:M in
  [/\ X^T *m X + Gamma^T *m Gamma \in unitmx,
      result (Identity.compute_loocv X y Gamma) = Return NaN
    & result (Identity.compute_loocv_slow X y Gamma) = Raise LinAlgError].
Proof.
move=> L X y Gamma; rewrite /X /y /Gamma.
have U : (1%:M : 'M[rat]_1)^T *m 1%:M + (0%:M : 'M[rat]_1)^T *m 0%:M
           \in unitmx.
  by rewrite scalar_penalty scalar_unit.
split=> //.
  rewrite /Identity.compute_loocv efficient_sum //.
  by rewrite (scalar_regularization (0 : rat)) scalar_sum.
rewrite compute_loocv_slowE enum_ord1 /= refit_nothing //.
by rewrite (scalar_regularization (0 : rat)) mulr0 raddf0.
Qed.

(** The hypotheses of the finite case of C6 hold for [X = [[1]]],
    [y = [2]], [Gamma = [[1]]]. *)
Lemma singular_design_witness :
  let L := exact_elimination rat in
  let X : 'M[rat]_(1, 1) := 1%:M in
  let y : 'cV[rat]_1 := 2%:R%:M in
  let Gamma : 'M[rat]_1 := 1%:M in
  exists s, result (Identity.compute_loocv X y Gamma) = Return (Fin s).
Proof.
move=> L X y Gamma.
have U : X^T *m X + Gamma^T *m Gamma \in unitmx.
  by rewrite /X /Gamma scalar_penalty scalar_unit.
have H i : leverage X (Gamma^T *m Gamma) i != 1.
  by rewrite /X /Gamma scalar_regularization scalar_leverage.
have [_ _ _ /(_ U H) [s [Es _]] _] := singular_design L X y Gamma.
by exists s.
Defined.

(** The laws of the solver do not make it raise on every singular matrix.
    For [X = [[1, 2, 3], [4, 5, 6], [7, 8, 9]]] without regularization the
    matrix [X^T X] is singular and not zero: with a solver that misses the
    zero pivot the efficient estimator returns a value. *)
Lemma singular_design_returns
    (stray : forall p : nat, 'M[rat]_p -> 'M[rat]_p) (y : 'cV[rat]_3) :
  let L := missed_pivot stray in
  let X : 'M[rat]_3 := \matrix_(i, j) (3 * i + j.+1)%:R in
  let Gamma : 'M[rat]_3 := 0 in
  X^T *m X + Gamma^T *m Gamma \notin unitmx /\
  exists v, Identity.compute_loocv X y Gamma = (1%N, Return v).
Proof.
move=> L X Gamma.
pose v : 'cV[rat]_3 := \col_i nth 0 [:: 1; - 2%:R; 1] i.
have Xv : X *m v = 0.
  apply/matrixP => i j; rewrite !mxE !big_ord_recl big_ord0 !mxE /=.
  by case: i => [[|[|[|i]]] //= li]; apply/eqP; vm_compute.
have S : X^T *m X + Gamma^T *m Gamma \notin unitmx.
  apply/negP => U.
  have Av : (X^T *m X + Gamma^T *m Gamma) *m v = 0.
    by rewrite mulmxDl -mulmxA Xv mulmx0 /Gamma mulmx0 mul0mx addr0.
  have : v = 0 by rewrite -[v]mul1mx -(mulVmx U) -mulmxA Av mulmx0.
  move/matrixP/(_ ord0 ord0); rewrite !mxE /= => /eqP.
  by vm_compute.
have NZ : X^T *m X + Gamma^T *m Gamma != 0.
  apply/eqP => /matrixP/(_ ord0 ord0).
  rewrite !mxE !big_ord_recl !big_ord0 !mxE /= => /eqP.
  by vm_compute.
split=> //.
rewrite /Identity.compute_loocv /np_linalg_inv /= (negPf S) (negPf NZ).
by eexists.
Qed.

(** ** The ridge fit *)

(** C10.  The ridge fit called with a Python [float] [alpha] returns what
    it returns when called with the array of [p] entries equal to [alpha],
    the same coefficients or the same error. *)
Theorem ridge_dispatch (F : realFieldType) (L : lapack F) (n p : nat)
    (X : 'M[F]_(n, p)) (y : 'cV[F]_n) (alpha : F) :
  Simulation.fit_ridge_regression X y (Simulation.PyFloat p alpha) =
  Simulation.fit_ridge_regression X y (Simulation.NdArray (const_mx alpha)).
Proof.
rewrite /Simulation.fit_ridge_regression.
have -> // : alpha *: const_mx 1 = const_mx alpha :> 'rV[F]_p.
by apply/matrixP => i j; rewrite !mxE mulr1.
Qed.

(** ** The statistics of the simulation *)

Section Statistics.

Variable F : realFieldType.
Context {L : lapack F}.
Variable sqrt : F -> F.
Variable t_interval : F -> int -> float F -> float F * float F.

Lemma sum_finite (s : seq F) (f : F -> F) :
  foldr (@xadd F) (Fin 0) [seq Fin (f v) | v <- s] = Fin (\sum_(v <- s) f v).
Proof.
elim: s => [|v s IH] /=; first by rewrite big_nil.
by rewrite IH big_cons.
Qed.

Lemma np_mean_finite (values : seq F) :
  (0 < size values)%N ->
  Simulation.np_mean values = Fin ((\sum_(v <- values) v) / (size values)%:R).
Proof. by move=> n0; rewrite /Simulation.np_mean /= pnatr_eq0 -lt0n n0. Qed.

Lemma np_std_finite (values : seq F) :
  (1 < size values)%N ->
  let mean := (\sum_(v <- values) v) / (size values)%:R in
  Simulation.np_std sqrt values 1 =
  Fin (sqrt ((\sum_(v <- values) (v - mean) ^+ 2) / (size values - 1)%:R)).
Proof.
move=> n1 mean.
rewrite /Simulation.np_std np_mean_finite ?(ltnW n1) // -/mean.
rewrite -map_comp (@eq_map _ _ _ (fun v => Fin ((v - mean) ^+ 2))) //.
rewrite sum_finite /= pnatr_eq0 -lt0n subn_gt0 n1 /Simulation.np_sqrt.
rewrite ltNge divr_ge0 //.
by rewrite sumr_ge0 // => v _; rewrite sqr_ge0.
Qed.

End Statistics.

(** C7.  For at least two recorded errors the aggregation returns their
    sample mean, together with the upper endpoint of the interval that
    [scipy.stats.t.interval] gives for the confidence 0.95, [n_trials - 1]
    degrees of freedom, the default location and the scale
    [stddev / sqrt(n_trials)], where [stddev] is the sample standard
    deviation with [ddof = 1]. *)
Theorem simulation_statistics (F : realFieldType) (sqrt : F -> F)
    (t_interval : F -> int -> float F -> float F * float F)
    (values : seq F) :
  (1 < size values)%N ->
  let n_trials := size values in
  let mean := (\sum_(v <- values) v) / n_trials%:R in
  let stddev :=
    sqrt ((\sum_(v <- values) (v - mean) ^+ 2) / (n_trials - 1)%:R) in
  Simulation.compute_simulation_statistics sqrt t_interval values =
  (Fin mean,
   (t_interval (95%:R / 100%:R) (n_trials%:Z - 1)
      (xdiv (Fin stddev) (sqrt n_trials%:R))).2).
Proof.
move=> n1 n_trials mean stddev.
rewrite /Simulation.compute_simulation_statistics np_std_finite //.
rewrite np_mean_finite ?(ltnW n1) // /Simulation.standard_error /=.
by rewrite ltNge ler0n.
Qed.

(** The hypothesis of C7 holds for the errors [1, 3]. *)
Lemma simulation_statistics_witness :
  let values : seq rat := [:: 1; 3%:R] in
  let t_interval (c : rat) (df : int) (s : float rat) := (xopp s, s) in
  (1 < size values)%N /\
  (Simulation.compute_simulation_statistics id t_interval values).1 =
  Fin ((\sum_(v <- values) v) / 2%:R).
Proof.
move=> values t_interval; split; first by [].
by rewrite (@simulation_statistics rat id t_interval values).
Defined.

(** ** The local-optimum verifiers *)

Section Loops.

Lemma result_bind (T U : Type) (c : comp T) (k : T -> comp U) :
  result (bind c k) =
  match result c with
  | Raise e => Raise e
  | Return v => result (k v)
  end.
Proof. by rewrite /bind /result; case: c.2. Qed.

Lemma forM_result (A : eqType) (s : seq A) (body : A -> comp unit)
    (b : A -> bool) (e : exn) :
  (forall x, x \in s ->
     result (body x) = if b x then Raise e else Return tt) ->
  result (forM s body) = if has b s then Raise e else Return tt.
Proof.
elim: s => [|x s IH] // H.
rewrite /forM /= result_bind H ?mem_head //.
case: (b x) => //=; rewrite -/(forM s body) IH // => z zs.
by apply: H; rewrite in_cons zs orbT.
Qed.

End Loops.

Section Verifier.

Variable F : realFieldType.
Context {L : lapack F}.
Variables n p : nat.
Implicit Types (X : 'M[F]_(n, p)) (y : 'cV[F]_n) (D : 'M[F]_p).

Let delta_x : F := Simulation.float_1e_3 F.

Lemma compute_loocv_result X y D :
  X^T *m X + D \in unitmx ->
  result (Simulation.compute_loocv X y D) = Return (loocv_mean X y D).
Proof. by move=> U; rewrite /Simulation.compute_loocv efficient_mean. Qed.

Lemma check_direction_result (f : F -> comp (float F)) (g : F -> float F)
    (a x : F) :
  result (f `|x|) = Return (g `|x|) ->
  result (Simulation.check_direction f (g a) delta_x x) =
  if steep_descent (slope g a `|x| delta_x) then Raise cannot_verify
  else Return tt.
Proof.
move=> fx; rewrite /Simulation.check_direction result_bind fx.
by rewrite /steep_descent /slope; case: ifP.
Qed.

Lemma directions_result (f : F -> comp (float F)) (g : F -> float F)
    (a : F) :
  (forall x, x \in evaluation_points a -> result (f x) = Return (g x)) ->
  result (f0 <- f a ;;
          forM (perturbations a) (Simulation.check_direction f f0 delta_x)) =
  if has (fun x => steep_descent (slope g a `|x| delta_x)) (perturbations a)
  then Raise cannot_verify else Return tt.
Proof.
move=> H; rewrite result_bind H ?mem_head //.
apply: forM_result => x xs; apply: check_direction_result.
by apply: H; rewrite in_cons; apply/orP; right; apply: map_f.
Qed.

Lemma evaluation_points_ge0 (a x : F) :
  0 <= a -> x \in evaluation_points a -> 0 <= x.
Proof.
move=> a0; rewrite in_cons => /orP[/eqP -> //|/mapP[z _ ->]].
exact: normr_ge0.
Qed.

Lemma verify_loocv_opt_1_result X y (alpha : F) :
  (forall x, x \in evaluation_points alpha ->
     X^T *m X + x *: 1%:M \in unitmx) ->
  result (Simulation.verify_loocv_opt_1 X y alpha) =
  if has (fun x => steep_descent (slope (score_1 X y) alpha `|x| delta_x))
       (perturbations alpha)
  then Raise cannot_verify else Return tt.
Proof.
move=> U; apply: directions_result => x xs.
by rewrite compute_loocv_result ?U.
Qed.

Lemma verify_loocv_opt_p_result X y (alpha : 'rV[F]_p) :
  (forall i x, x \in evaluation_points (alpha 0 i) ->
     X^T *m X + diag_mx (setitem_row alpha i x) \in unitmx) ->
  result (Simulation.verify_loocv_opt_p X y alpha) =
  if has (fun i =>
       has (fun x =>
         steep_descent (slope (score_p X y alpha i) (alpha 0 i) `|x| delta_x))
       (perturbations (alpha 0 i))) (enum 'I_p)
  then Raise cannot_verify else Return tt.
Proof.
move=> U; apply: forM_result => i _.
apply: directions_result => x xs.
by rewrite compute_loocv_result ?U.
Qed.

End Verifier.

(** C3 (amended).  Provided every matrix a verifier inverts is invertible
    (for every component, at the fitted value and at the absolute values
    of the two perturbed values, the other components fixed), the verifier
    raises the assertion error [can't verify optimum] if and only if for
    some component and some perturbed value [x] among
    [alpha_i - delta], [alpha_i + delta] the slope
    [(f |x| - f alpha_i) / delta] with [delta = 1e-3] is negative with a
    magnitude above [1e-3]; otherwise it returns. *)
Theorem verifier_outcome (F : realFieldType) (L : lapack F) (n p : nat)
    (X : 'M[F]_(n, p)) (y : 'cV[F]_n) :
  let delta_x := Simulation.float_1e_3 F in
  (forall alpha : F,
     (forall x, x \in evaluation_points alpha ->
        X^T *m X + x *: 1%:M \in unitmx) ->
     let descent :=
       exists2 x, x \in perturbations alpha
         & steep_descent (slope (score_1 X y) alpha `|x| delta_x) in
     (result (Simulation.verify_loocv_opt_1 X y alpha) = Raise cannot_verify
      <-> descent) /\
     (~ descent ->
      result (Simulation.verify_loocv_opt_1 X y alpha) = Return tt)) /\
  (forall alpha : 'rV[F]_p,
     (forall i x, x \in evaluation_points (alpha 0 i) ->
        X^T *m X + diag_mx (setitem_row alpha i x) \in unitmx) ->
     let descent :=
       exists i, exists2 x, x \in perturbations (alpha 0 i)
         & steep_descent
             (slope (score_p X y alpha i) (alpha 0 i) `|x| delta_x) in
     (result (Simulation.verify_loocv_opt_p X y alpha) = Raise cannot_verify
      <-> descent) /\
     (~ descent ->
      result (Simulation.verify_loocv_opt_p X y alpha) = Return tt)).
Proof.
move=> delta_x; split=> alpha U descent.
- rewrite verify_loocv_opt_1_result //; case: hasP => [d|nd].
    have D : descent by case: d => x xs sx; exists x.
    by split; [split | move/(_ D)].
  have ND : ~ descent by case=> x xs sx; case: nd; exists x.
  by split; [split=> // /ND | ].
- rewrite verify_loocv_opt_p_result //; case: hasP => [d|nd].
    have D : descent.
      by case: d => i _ /hasP[x xs sx]; exists i; exists x.
    by split; [split | move/(_ D)].
  have ND : ~ descent.
    case=> i [x xs sx]; case: nd; exists i; rewrite ?mem_enum //.
    by apply/hasP; exists x.
  by split; [split=> // /ND | ].
Qed.

(** C3, counterexample.  With [X = [[0]]], [y = [0]] and [alpha = 0] the
    first score needs the inverse of the zero matrix: the verifier leaves
    with the error of the solver, it neither reports
    [can't verify optimum] nor returns. *)
Lemma verifier_outcome_fails :
  let L := exact_elimination rat in
  let X : 'M[rat]_(1, 1) := 0%:M in
  let y : 'cV[rat]_1 := 0%:M in
  let r := result (Simulation.verify_loocv_opt_1 X y 0) in
  [/\ r = Raise LinAlgError, r <> Raise cannot_verify & r <> Return tt].
Proof.
move=> L X y r.
have -> : r = Raise LinAlgError.
  rewrite /r /Simulation.verify_loocv_opt_1 result_bind.
  rewrite /Simulation.compute_loocv /X scalemx1 scalar_gram mulr0 add0r.
  by rewrite raddf0 np_linalg_inv_zero.
by split.
Qed.

(** The hypothesis of C3 holds for [X = [[1]]], [y = [1]], [alpha = 1]. *)
Lemma verifier_outcome_witness :
  let L := exact_elimination rat in
  let X : 'M[rat]_(1, 1) := 1%:M in
  let y : 'cV[rat]_1 := 1%:M in
  (forall x, x \in evaluation_points (1 : rat) ->
     X^T *m X + x *: 1%:M \in unitmx) /\
  (~ (exists2 x, x \in perturbations (1 : rat)
        & steep_descent
            (slope (score_1 X y) 1 `|x| (Simulation.float_1e_3 rat))) ->
   result (Simulation.verify_loocv_opt_1 X y 1) = Return tt).
Proof.
move=> L X y.
have U x : x \in evaluation_points (1 : rat) ->
    X^T *m X + x *: 1%:M \in unitmx.
  rewrite /X scalemx1 scalar_unit => xs.
  have x0 : 0 <= x := evaluation_points_ge0 ler01 xs.
  by apply: lt0r_neq0; rewrite mulr1 ltr_pwDl ?ltr01.
split=> //.
by have [/(_ 1 U) [_ H] _] := verifier_outcome L X y.
Defined.

(** ** Rotation matrices *)

Section PlanarRotation.

Variable F : realFieldType.
Context {L : lapack F}.
Variables c s : F.
Hypothesis unit_circle : c ^+ 2 + s ^+ 2 = 1.

Lemma planar_rotationE (m i : nat) (a b : 'I_m) :
  planar_rotation m i c s a b =
  if (a == i.+1 :> nat) && (b == i.+1 :> nat) then c
  else if (a == i.+1 :> nat) && (b == i :> nat) then s
  else if (a == i :> nat) && (b == i.+1 :> nat) then - s
  else if (a == i :> nat) && (b == i :> nat) then c
  else (a == b)%:R.
Proof. by rewrite !mxE. Qed.

Lemma planar_rotation_step (m i : nat) :
  planar_rotation (1 + m) i.+1 c s =
  block_mx 1%:M 0 0 (planar_rotation m i c s).
Proof.
rewrite -[LHS]submxK; congr block_mx; apply/matrixP => a b.
- by rewrite !ord1 !mxE /=.
- by rewrite !ord1 !mxE /= ?mulr0n.
- by rewrite !ord1 !mxE /= ?mulr0n ?andbF.
- by rewrite !mxE /= !add1n !eqSS eq_rshift.
Qed.

Lemma planar_rotation_base (m : nat) :
  planar_rotation (2 + m) 0 c s =
  block_mx (planar_rotation 2 0 c s) 0 0 1%:M.
Proof.
rewrite -[LHS]submxK; congr block_mx; apply/matrixP => a b.
- by rewrite !mxE /= eq_lshift.
- rewrite !mxE /=.
  by case: a => [[|[|a]] //= la]; rewrite ?mulr0n.
- rewrite !mxE /=.
  by case: b => [[|[|b]] //= lb]; rewrite ?andbF ?mulr0n.
- by rewrite !mxE /= eq_rshift.
Qed.

Lemma planar_rotation2_orthogonal :
  (planar_rotation 2 0 c s)^T *m planar_rotation 2 0 c s = 1%:M.
Proof.
apply/matrixP => a b; rewrite !mxE !big_ord_recl big_ord0 !mxE /=.
case: a => [[|[|a]] //= la]; case: b => [[|[|b]] //= lb];
  rewrite -?val_eqE /= ?mulr0n ?mulr1n ?addr0 -?expr2 ?sqrrN //.
- by ring.
- by ring.
- by rewrite addrC.
Qed.

Lemma planar_rotation2_det : \det (planar_rotation 2 0 c s) = 1.
Proof.
rewrite (expand_det_row _ ord0) !big_ord_recl big_ord0 /cofactor !det_mx11.
rewrite !mxE /= addr0 expr0 mul1r expr1 mulN1r mulrN mulNr opprK.
by rewrite -!expr2.
Qed.

Lemma block_orthogonal (n1 n2 : nat) (A : 'M[F]_n1) (B : 'M[F]_n2) :
  A^T *m A = 1%:M -> B^T *m B = 1%:M ->
  (block_mx A 0 0 B)^T *m block_mx A 0 0 B = 1%:M.
Proof.
move=> oA oB; rewrite tr_block_mx mulmx_block !trmx0.
by rewrite !mulmx0 !mul0mx !addr0 !add0r oA oB -scalar_mx_block.
Qed.

Lemma identity_orthogonal (m : nat) : (1%:M : 'M[F]_m)^T *m 1%:M = 1%:M.
Proof. by rewrite trmx1 mulmx1. Qed.

Lemma planar_rotation_orthogonal (m i : nat) :
  (i.+1 < m)%N ->
  (planar_rotation m i c s)^T *m planar_rotation m i c s = 1%:M.
Proof.
elim: i m => [|i IH] [|[|m]] // lt_im.
  have := block_orthogonal planar_rotation2_orthogonal
            (identity_orthogonal m).
  by rewrite -planar_rotation_base.
have := block_orthogonal (identity_orthogonal 1) (IH m.+1 lt_im).
by rewrite -planar_rotation_step.
Qed.

Lemma planar_rotation_det (m i : nat) :
  (i.+1 < m)%N -> \det (planar_rotation m i c s) = 1.
Proof.
elim: i m => [|i IH] [|[|m]] // lt_im.
  have := det_ublock (planar_rotation 2 0 c s) (0 : 'M[F]_(2, m)) 1%:M.
  by rewrite -planar_rotation_base planar_rotation2_det det1 mulr1.
have := det_ublock (1%:M : 'M[F]_1) (0 : 'M[F]_(1, m.+1))
          (planar_rotation m.+1 i c s).
by rewrite -planar_rotation_step det1 mul1r IH.
Qed.

End PlanarRotation.

Section Generator.
Variable F : realFieldType.
Context {L : lapack F}.
Variable angle : Type.
Variables cos sin : angle -> F.
Hypothesis unit_circle : forall t, cos t ^+ 2 + sin t ^+ 2 = 1.

Lemma generate_rotation_matrixE (n : nat) (theta : nat -> angle) :
  Rotations.generate_rotation_matrix cos sin n theta =
  foldl (fun R i =>
           R *m planar_rotation n i (cos (theta i)) (sin (theta i)))
    1%:M (iota 0 n.-1).
Proof. by []. Qed.

Lemma rotations_fold (n : nat) (theta : nat -> angle) (s : seq nat)
    (R : 'M[F]_n) :
  (forall i, i \in s -> (i.+1 < n)%N) ->
  R^T *m R = 1%:M -> \det R = 1 ->
  let R' := foldl (fun R i =>
                     R *m planar_rotation n i (cos (theta i)) (sin (theta i)))
              R s in
  R'^T *m R' = 1%:M /\ \det R' = 1.
Proof.
elim: s R => [|i s IH] R lt_s oR dR //=.
apply: IH => [k ks||].
- by apply: lt_s; rewrite in_cons ks orbT.
- rewrite trmx_mul mulmxA -(mulmxA _ R^T) oR mulmx1.
  by rewrite planar_rotation_orthogonal // lt_s ?mem_head.
- by rewrite det_mulmx dR mul1r planar_rotation_det // lt_s ?mem_head.
Qed.

End Generator.

(** C9.  For every [n] and all angles, the cosine and the sine of an
    angle lying on the unit circle, the matrix [generate_rotation_matrix]
    returns, the product of [n - 1] planar rotations in the planes of
    adjacent coordinates, is orthogonal and has determinant one. *)
Theorem rotation_matrix_orthogonal (F : realFieldType) (angle : Type)
    (cos sin : angle -> F) (n : nat) (theta : nat -> angle) :
  (forall t, cos t ^+ 2 + sin t ^+ 2 = 1) ->
  let R := Rotations.generate_rotation_matrix cos sin n theta in
  R^T *m R = 1%:M /\ \det R = 1.
Proof.
move=> unit_circle R; rewrite /R generate_rotation_matrixE.
apply: rotations_fold => //; last 2 first.
- by rewrite trmx1 mulmx1.
- by rewrite det1.
move=> i; rewrite mem_iota add0n.
by case: n {R} => [|n] //= /andP[_]; rewrite ltnS.
Qed.

(** The hypothesis of C9 holds for the angles of cosines [3/5] and [0]. *)
Lemma rotation_matrix_orthogonal_witness :
  let cos (t : bool) : rat := if t then 3%:R / 5%:R else 0 in
  let sin (t : bool) : rat := if t then 4%:R / 5%:R else 1 in
  let R := Rotations.generate_rotation_matrix cos sin 3 (fun i => odd i) in
  (forall t, cos t ^+ 2 + sin t ^+ 2 = 1) /\ R^T *m R = 1%:M /\ \det R = 1.
Proof.
move=> cos sin R.
have H t : cos t ^+ 2 + sin t ^+ 2 = 1 by case: t; apply/eqP.
by split=> //; apply: rotation_matrix_orthogonal.
Defined.

(** ** Rotating the observations *)

Section HalfTurn.

Variable F : realFieldType.
Context {L : lapack F}.
Variables n p : nat.
Implicit Types (X : 'M[F]_(n, p)) (y : 'cV[F]_n) (Gamma : 'M[F]_p).

Lemma xsqr_xdiv_opp (r d : F) :
  xsqr (xdiv (Fin (- r)) d) = xsqr (xdiv (Fin r) d).
Proof.
rewrite /xdiv; case: (altP (d =P 0)) => [_|d0] /=.
  rewrite oppr_eq0 oppr_gt0; case: (ltrgt0P r) => //.
by rewrite mulNr sqrrN.
Qed.

Lemma hat_diagonal_opp (A_inv : 'M[F]_p) X :
  hat_diagonal A_inv (- X) = hat_diagonal A_inv X.
Proof.
apply/matrixP => i j; rewrite [LHS]mxE [RHS]mxE.
by rewrite !linearN /= mulNmx opprK.
Qed.

Lemma loocv_half_turn X y Gamma :
  Rotations.loocv_rotated (- 1%:M) X y Gamma =
  Rotations.compute_loocv X y Gamma.
Proof.
rewrite /Rotations.loocv_rotated /Rotations.compute_loocv /=.
have E q (M : 'M[F]_(n, q)) : - 1%:M *m M = - M by rewrite mulNmx mul1mx.
rewrite !E [(- X)^T]linearN /= ?mulNmx ?mulmxN ?opprK.
rewrite /np_linalg_inv /bind /=; case: (gesv _) => //= A_inv.
congr (_, Return (xdiv _ _)); apply: eq_bigr => i _.
rewrite /loo_squares hat_diagonal_opp mulNmx.
set t := X *m _.
have -> : (- y) i 0 - (- t) i 0 = - (y i 0 - t i 0).
  by rewrite [(- y) i 0]mxE [(- t) i 0]mxE opprK opprB addrC.
exact: xsqr_xdiv_opp.
Qed.

End HalfTurn.

Section Regularized.
Variable F : realFieldType.
Context {L : lapack F}.
Variables n p : nat.
Implicit Types (X : 'M[F]_(n, p)) (y : 'cV[F]_n) (Gamma : 'M[F]_p).

Lemma regularized_leverage X Gamma i :
  Gamma \in unitmx -> leverage X (Gamma^T *m Gamma) i != 1.
Proof.
move=> U; have /andP[_] := leverage_range X i (posdef_gram U).
by move/lt_eqF ->.
Qed.

Lemma regularized_unit X Gamma :
  Gamma \in unitmx -> X^T *m X + Gamma^T *m Gamma \in unitmx.
Proof. by move=> U; apply/posdef_unit/posdef_regularized/posdef_gram. Qed.

Lemma loocv_mean_finite X y (D : 'M[F]_p) :
  (0 < n)%N -> (forall i, leverage X D i != 1) ->
  loocv_mean X y D = Fin ((\sum_i loo_residual X y D i ^+ 2) / n%:R).
Proof.
move=> n0 h1.
by rewrite /loocv_mean loocv_sum_finite //= pnatr_eq0 -lt0n n0.
Qed.

End Regularized.

Section SingleFeature.
Variable F : realFieldType.
Context {L : lapack F}.
Variable n : nat.
Variables (X : 'M[F]_(n, 1)) (y : 'cV[F]_n) (g : F).

Let a : F := \sum_i X i 0 ^+ 2 + g * g.
Let D : 'M[F]_1 := (g%:M)^T *m g%:M.

Lemma single_gram : X^T *m X + D = a%:M.
Proof.
rewrite /D scalar_regularization /a raddfD /=; congr (_ + _).
apply/matrixP => i j; rewrite !ord1 !mxE /= mulr1n.
by apply: eq_bigr => k _; rewrite !mxE expr2.
Qed.

Lemma single_unit : (X^T *m X + D \in unitmx) = (a != 0).
Proof. by rewrite single_gram unitmxE det_scalar1 unitfE. Qed.

Lemma single_leverage i : leverage X D i = X i 0 * a^-1 * X i 0.
Proof.
rewrite /leverage big_ord1 big_ord1 single_gram invmx_scalar !mxE /=.
by rewrite mulr1n.
Qed.

Lemma single_fitted i :
  fitted X y D i = X i 0 * (a^-1 * \sum_k X k 0 * y k 0).
Proof.
rewrite /fitted /ridge_coefficients big_ord1 single_gram invmx_scalar.
rewrite -mulmxA mul_scalar_mx !mxE; congr (_ * (_ * _)).
by apply: eq_bigr => k _; rewrite !mxE.
Qed.

End SingleFeature.

Section TwoObservations.
Variable F : realFieldType.
Context {L : lapack F}.

Lemma sum_col2 (f : 'I_2 -> F) : \sum_i f i = f ord0 + f (lift ord0 ord0).
Proof. by rewrite !big_ord_recl big_ord0 addr0. Qed.

Lemma two_point_score (x0 x1 y0 y1 g : F) :
  g != 0 ->
  let a := x0 ^+ 2 + x1 ^+ 2 + g * g in
  let b := a^-1 * (x0 * y0 + x1 * y1) in
  Rotations.compute_loocv (col2 x0 x1) (col2 y0 y1) g%:M =
  (1%N, Return (Fin ((((y0 - x0 * b) / (1 - x0 * a^-1 * x0)) ^+ 2 +
                      ((y1 - x1 * b) / (1 - x1 * a^-1 * x1)) ^+ 2)
                     / 2%:R))).
Proof.
move=> g0 a b.
have U : (g%:M : 'M[F]_1) \in unitmx by rewrite unitmxE det_scalar1 unitfE.
rewrite /Rotations.compute_loocv (efficient_mean _ (regularized_unit _ U)).
have h1 i : leverage (col2 x0 x1) ((g%:M)^T *m g%:M) i != 1.
  exact: regularized_leverage.
rewrite (loocv_mean_finite _ _ h1) //.
rewrite sum_col2 /loo_residual !single_fitted !single_leverage !sum_col2.
by rewrite !mxE /=.
Qed.

Lemma rotate_col2 (c s v0 v1 : F) :
  planar_rotation 2 0 c s *m col2 v0 v1 =
  col2 (c * v0 - s * v1) (s * v0 + c * v1).
Proof.
apply/matrixP => i j; rewrite !ord1 mxE sum_col2 !planar_rotationE.
rewrite ![col2 _ _ _ _]mxE.
by case: i => [[|[|i]] //= li]; rewrite mulNr.
Qed.

Lemma generate_rotation_matrix2 (angle : Type) (cos sin : angle -> F)
    (theta : nat -> angle) :
  Rotations.generate_rotation_matrix cos sin 2 theta =
  planar_rotation 2 0 (cos (theta 0%N)) (sin (theta 0%N)).
Proof. by rewrite generate_rotation_matrixE /= mul1mx. Qed.

End TwoObservations.

(** C4 (amended).  Rotating [X] and [y] together can change the score:
    for the observations [X = [[1], [0]]], [y = [0, 1]], [Gamma = [[1]]]
    and the rotation [generate_rotation_matrix] builds from the angle of
    cosine [3/5] and sine [4/5], both scores are finite numbers and they
    differ. *)
Theorem rotation_sensitivity (L : lapack rat) :
  let cos (_ : unit) : rat := 3%:R / 5%:R in
  let sin (_ : unit) : rat := 4%:R / 5%:R in
  let Q := Rotations.generate_rotation_matrix cos sin 2 (fun _ => tt) in
  let X : 'M[rat]_(2, 1) := col2 1 0 in
  let y : 'cV[rat]_2 := col2 0 1 in
  let Gamma : 'M[rat]_1 := 1%:M in
  exists a b : rat,
    [/\ Rotations.compute_loocv X y Gamma = (1%N, Return (Fin a)),
        Rotations.loocv_rotated Q X y Gamma = (1%N, Return (Fin b))
      & a != b].
Proof.
move=> cos sin Q X y Gamma.
rewrite /Rotations.loocv_rotated /Q generate_rotation_matrix2 !rotate_col2.
rewrite !two_point_score ?oner_neq0 //.
by eexists; eexists; split; [reflexivity | reflexivity | vm_compute].
Qed.

Lemma half_turn (F : realFieldType) :
  planar_rotation 2 0 (- 1) 0 = - 1%:M :> 'M[F]_2.
Proof.
apply/matrixP => i j; rewrite planar_rotationE !mxE.
case: i => [[|[|i]] //= li]; case: j => [[|[|j]] //= lj];
  by rewrite -?val_eqE /= ?mulr0n ?oppr0 ?mulr1n.
Qed.

(** C4, counterexample.  The half turn, which [generate_rotation_matrix]
    builds for [n = 2] from the angle of cosine [-1] and sine [0], is
    orthogonal, has determinant one and is not the identity; rotating [X]
    and [y] by it leaves the score of a problem with the regularization
    [diag(1, 2)] unchanged. *)
Lemma rotation_sensitivity_fails :
  let L := exact_elimination rat in
  let cos (_ : unit) : rat := - 1 in
  let sin (_ : unit) : rat := 0 in
  let Q := Rotations.generate_rotation_matrix cos sin 2 (fun _ => tt) in
  let X : 'M[rat]_(2, 2) := \matrix_(i, j) (i + j.+1)%:R in
  let y : 'cV[rat]_2 := \col_i i.+1%:R in
  let Gamma : 'M[rat]_2 := diag_mx (\row_j j.+1%:R) in
  [/\ Q^T *m Q = 1%:M, \det Q = 1, Q != 1%:M
    & exists s : rat,
        Rotations.compute_loocv X y Gamma = (1%N, Return (Fin s)) /\
        Rotations.loocv_rotated Q X y Gamma = (1%N, Return (Fin s))].
Proof.
move=> L cos sin Q X y Gamma.
have EQ : Q = planar_rotation 2 0 (- 1) 0.
  by rewrite /Q generate_rotation_matrix2.
have circle : (- 1 : rat) ^+ 2 + 0 ^+ 2 = 1 by [].
have U : Gamma \in unitmx.
  by rewrite unitmxE det_diag !big_ord_recl big_ord0 !mxE unitfE.
split.
- by rewrite EQ planar_rotation_orthogonal.
- by rewrite EQ planar_rotation_det.
- rewrite EQ; apply/eqP => /matrixP/(_ ord0 ord0).
  by rewrite planar_rotationE !mxE /=.
- exists ((\sum_i loo_residual X y (Gamma^T *m Gamma) i ^+ 2) / 2%:R).
  set v := (\sum_i _) / _.
  have E : Rotations.compute_loocv X y Gamma = (1%N, Return (Fin v)).
    rewrite /Rotations.compute_loocv (efficient_mean _ (regularized_unit _ U)).
    by rewrite loocv_mean_finite // => i; apply: regularized_leverage.
  by rewrite EQ half_turn loocv_half_turn.
Qed.

(** ** What a call does to the arrays of its caller *)

Section Frame.

Variable F : realFieldType.
Context {L : lapack F}.
Variables n p : nat.

Notation heap := (Store.heap F n p).
Notation st := (Store.st F n p).
Notation unchanged := (@Store.unchanged F n p).
Notation allocates_only := (@Store.allocates_only F n p _).

Lemma unchanged_refl (h : heap) : unchanged h h.
Proof. by exists [::]; rewrite cats0. Qed.

Lemma unchanged_trans (h1 h2 h3 : heap) :
  unchanged h1 h2 -> unchanged h2 h3 -> unchanged h1 h3.
Proof. by case=> f1 -> [f2 ->]; exists (f1 ++ f2); rewrite catA. Qed.

Lemma unchanged_rcons (h : heap) a : unchanged h (rcons h a).
Proof. by exists [:: a]; rewrite cats1. Qed.

Lemma allocates_ret (T : Type) (v : T) : allocates_only (Store.st_ret v).
Proof. by move=> h; apply: unchanged_refl. Qed.

Lemma allocates_lift (T : Type) (c : comp T) : allocates_only (Store.lift c).
Proof. by move=> h; apply: unchanged_refl. Qed.

Lemma allocates_read (T : Type) (shape : Store.ndarray F n p -> option T) l :
  allocates_only (Store.read shape l).
Proof. by move=> h; apply: unchanged_refl. Qed.

Lemma allocates_alloc a : allocates_only (Store.alloc a).
Proof. by move=> h; apply: unchanged_rcons. Qed.

Lemma allocates_bind (T U : Type) (c : st T) (k : T -> st U) :
  allocates_only c -> (forall v, allocates_only (k v)) ->
  allocates_only (Store.st_bind c k).
Proof.
move=> Hc Hk h; rewrite /Store.st_bind.
case E: (c h) => [h1 [t1 [e|v]]] /=; first by have := Hc h; rewrite E.
by apply: unchanged_trans (Hk v h1); have := Hc h; rewrite E.
Qed.

Lemma allocates_foldM (A B : Type) (body : B -> A -> st B) (s : seq A) acc :
  (forall b x, allocates_only (body b x)) ->
  allocates_only (Store.st_foldM body acc s).
Proof.
move=> Hb; elim: s acc => [|x s IH] acc /=; first exact: allocates_ret.
by apply: allocates_bind.
Qed.

Lemma allocates_forM (A : Type) (body : A -> st unit) (s : seq A) :
  (forall x, allocates_only (body x)) ->
  allocates_only (Store.st_forM s body).
Proof. by move=> Hb; apply: allocates_foldM. Qed.

Lemma allocates_call (T : Type) f (X y D : nat) :
  allocates_only (@Store.call F n p T f X y D).
Proof.
rewrite /Store.call.
apply: allocates_bind; first exact: allocates_read.
move=> vX; apply: allocates_bind; first exact: allocates_read.
move=> vy; apply: allocates_bind; first exact: allocates_read.
by move=> vD; apply: allocates_lift.
Qed.

Lemma allocates_check (f : F -> st (float F)) f0 delta_x x :
  (forall t, allocates_only (f t)) ->
  allocates_only (Store.check_direction f f0 delta_x x).
Proof.
move=> Hf; apply: allocates_bind => // fx.
rewrite /=; case: (_ && _) => /=; first exact: allocates_lift.
exact: allocates_ret.
Qed.

Lemma deref_fresh (h : heap) a :
  Store.deref (rcons h a) (size h) = Some a.
Proof. by rewrite /Store.deref -cats1 drop_size_cat. Qed.

Lemma deref_old (h fresh : heap) l :
  (l < size h)%N -> Store.deref (h ++ fresh) l = Store.deref h l.
Proof.
rewrite /Store.deref; elim: h l => [|a h IH] [|l] //= lt_l.
exact: IH.
Qed.

Lemma set_nth_fresh (h : heap) a b x0 :
  set_nth x0 (rcons h a) (size h) b = rcons h b.
Proof. by elim: h => [|c h IH] //=; rewrite IH. Qed.

Lemma setitem_fresh (h : heap) (v : 'rV[F]_p) (i : 'I_p) (x : F) :
  Store.setitem (size h) i x (rcons h (Store.Params n v)) =
  (rcons h (Store.Params n (setitem_row v i x)), ret tt).
Proof. by rewrite /Store.setitem deref_fresh set_nth_fresh. Qed.

(** The assignment [alpha_copy[i] = x] writes the copy just made. *)
Lemma allocates_copy (T : Type) (alpha : nat) (i : 'I_p) (x : F)
    (k : nat -> st T) :
  (forall l, allocates_only (k l)) ->
  allocates_only
    (Store.st_bind (Store.np_array alpha) (fun alpha_copy =>
       Store.st_bind (Store.setitem alpha_copy i x) (fun _ => k alpha_copy))).
Proof.
move=> Hk h.
rewrite /Store.st_bind /Store.np_array /Store.st_bind /Store.get_params.
rewrite /Store.read /=.
case: (Store.deref h alpha) => [[X|y|v|D]|] /=; try exact: unchanged_refl.
rewrite setitem_fresh /=.
exact: unchanged_trans (unchanged_rcons _ _) (Hk _ _).
Qed.

Lemma allocates_np_diag alpha : allocates_only (Store.np_diag alpha).
Proof.
apply: allocates_bind; first exact: allocates_read.
by move=> v; apply: allocates_alloc.
Qed.

Lemma allocates_getitem alpha i : allocates_only (Store.getitem alpha i).
Proof.
apply: allocates_bind; first exact: allocates_read.
by move=> v; apply: allocates_ret.
Qed.

Lemma allocates_only_deref (T : Type) (c : st T) (h : heap) (l : nat) :
  allocates_only c -> (l < size h)%N ->
  Store.deref (c h).1 l = Store.deref h l.
Proof. by move=> /(_ h)[fresh ->]; apply: deref_old. Qed.

End Frame.

(** C8.  A call to an estimator, to the ridge fit or to a verifier leaves
    every array of its caller as it was, the matrix [X], the vector [y] and
    the regularization among them: the heap after the call is the heap
    before it followed by the arrays the call allocated.  The per-feature
    verifier writes only the copy [np.array(alpha)] it has just made. *)
Theorem inputs_unchanged (F : realFieldType) (L : lapack F) (n p : nat)
    (X y : nat) :
  (forall Gamma,
     Store.allocates_only (@Store.compute_loocv_slow F L n p X y Gamma)) /\
  (forall Gamma,
     Store.allocates_only
       (@Store.compute_loocv_brute_force F L n p X y Gamma)) /\
  (forall Gamma,
     Store.allocates_only (@Store.compute_loocv_efficient F L n p X y Gamma)) /\
  (forall D, Store.allocates_only (@Store.compute_loocv F L n p X y D)) /\
  (forall alpha,
     Store.allocates_only (@Store.fit_ridge_regression F L n p X y alpha)) /\
  (forall alpha,
     Store.allocates_only (@Store.verify_loocv_opt_1 F L n p X y alpha)) /\
  (forall alpha,
     Store.allocates_only (@Store.verify_loocv_opt_p F L n p X y alpha)).
Proof.
do ![split]; move=> alpha; try exact: allocates_call.
- apply: allocates_bind.
    by case: alpha => [a|l]; [apply: allocates_alloc | apply: allocates_ret].
  move=> l; apply: allocates_bind; first exact: allocates_np_diag.
  move=> D; apply: allocates_bind; first exact: allocates_read.
  move=> vX; apply: allocates_bind; first exact: allocates_read.
  move=> vy; apply: allocates_bind; first exact: allocates_read.
  by move=> vD; apply: allocates_lift.
- have Hf x : Store.allocates_only
      (Store.st_bind (Store.alloc (Store.Square n (x *: 1%:M)))
         (fun D => @Store.compute_loocv F L n p X y D)).
    apply: allocates_bind; first exact: allocates_alloc.
    by move=> D; apply: allocates_call.
  apply: allocates_bind => // f0.
  by apply: allocates_forM => x; apply: allocates_check.
- apply: allocates_forM => i.
  apply: allocates_bind; first exact: allocates_getitem.
  move=> alpha_i.
  have Hf x : Store.allocates_only
      (Store.st_bind (Store.np_array alpha) (fun alpha_copy =>
         Store.st_bind (Store.setitem alpha_copy i x) (fun _ =>
           Store.st_bind (Store.np_diag alpha_copy) (fun D =>
             @Store.compute_loocv F L n p X y D)))).
    apply: allocates_copy => l.
    apply: allocates_bind; first exact: allocates_np_diag.
    by move=> D; apply: allocates_call.
  apply: allocates_bind => // f0.
  by apply: allocates_forM => x; apply: allocates_check.
Qed.

(** * Further properties of the notebooks *)

(** ** Scores are never negative *)

Section NonNegative.
Variable F : realFieldType.
Context {L : lapack F}.

Lemma xsqr_not_negative (a : float F) : xltr (xsqr a) 0 = false.
Proof. by case: a => //= u; rewrite ltNge sqr_ge0. Qed.

Lemma xadd_not_negative (a b : float F) :
  xltr a 0 = false -> xltr b 0 = false -> xltr (xadd a b) 0 = false.
Proof.
case: a => [u|||] //; case: b => [v|||] //= /negbT + /negbT.
by rewrite -!leNgt => u0 v0; apply/negbTE; rewrite -leNgt addr_ge0.
Qed.

Lemma np_sum_not_negative (m : nat) (a : 'I_m -> float F) :
  (forall i, xltr (a i) 0 = false) -> xltr (np_sum a) 0 = false.
Proof.
move=> Ha; rewrite /np_sum; elim/big_ind: _ => //=.
exact: xadd_not_negative.
Qed.

Lemma xdiv_not_negative (a : float F) (m : nat) :
  xltr a 0 = false -> xltr (xdiv a m%:R) 0 = false.
Proof.
case: a => [u|||] //=; last by rewrite ler0n.
move/negbT; rewrite -leNgt => u0.
case: ifP => _ /=; first by apply/negbTE; rewrite -leNgt divr_ge0 ?ler0n.
by case: eqP => // /eqP u1; rewrite lt0r u1 u0.
Qed.

Variables n p : nat.

(** X1.  Whatever the inputs, the efficient estimator either raises the
    error of the solver or returns a value that is not negative: a
    non-negative number, an infinity of positive sign or a NaN. *)
Theorem efficient_score_not_negative (X : 'M[F]_(n, p)) (y : 'cV[F]_n)
    (D Gamma : 'M[F]_p) :
  match result (Simulation.compute_loocv X y D) with
  | Return v => xltr v 0 = false
  | Raise e => e = LinAlgError
  end /\
  match result (Identity.compute_loocv X y Gamma) with
  | Return v => xltr v 0 = false
  | Raise e => e = LinAlgError
  end.
Proof.
rewrite /Simulation.compute_loocv /Identity.compute_loocv /np_linalg_inv.
rewrite /bind /result /=; split; case: (gesv _) => //= A_inv.
  apply/xdiv_not_negative/np_sum_not_negative => i.
  exact: xsqr_not_negative.
by apply/np_sum_not_negative => i; apply: xsqr_not_negative.
Qed.

Lemma brute_loop_not_negative (X : 'M[F]_(n, p)) (y : 'cV[F]_n)
    (Gamma : 'M[F]_p) (s : seq 'I_n) (r r' : pynum F) (a : F) :
  pyval r = Fin a -> 0 <= a ->
  result (foldM (refit X y Gamma) r s) = Return r' ->
  exists2 b, pyval r' = Fin b & 0 <= b.
Proof.
elim: s r a => [|i s IH] r a ra a0 /=; first by case=> <-; exists a.
rewrite result_bind /refit result_bind.
case: (result (np_linalg_inv _)) => //= A_mi_inv.
set sq := (_ ^+ 2).
apply: (IH (py_iadd r (Fin sq)) (a + sq)); first by rewrite /= ra.
by rewrite addr_ge0 ?sqr_ge0.
Qed.

Lemma brute_loop_raise (X : 'M[F]_(n, p)) (y : 'cV[F]_n)
    (Gamma : 'M[F]_p) (s : seq 'I_n) (r : pynum F) (e : exn) :
  result (foldM (refit X y Gamma) r s) = Raise e -> e = LinAlgError.
Proof.
elim: s r => [|i s IH] r //=.
rewrite result_bind /refit result_bind /np_linalg_inv /result /=.
by case: (gesv _) => [A_mi_inv|] /=; [apply: IH | case].
Qed.

(** X2.  Whatever the inputs, the brute-force estimators raise nothing
    but the error of the solver, or [ZeroDivisionError] for the mean of no
    observation, and otherwise return a value that is not negative. *)
Theorem brute_force_score_not_negative (X : 'M[F]_(n, p)) (y : 'cV[F]_n)
    (Gamma : 'M[F]_p) :
  match result (Identity.compute_loocv_slow X y Gamma) with
  | Return r => xltr (pyval r) 0 = false
  | Raise e => e = LinAlgError
  end /\
  match result (Verification.compute_loocv_brute_force X y Gamma) with
  | Return v => xltr v 0 = false
  | Raise e => e = LinAlgError \/ e = ZeroDivisionError /\ n = 0%N
  end.
Proof.
rewrite compute_loocv_brute_forceE result_bind compute_loocv_slowE.
case E: (result _) => [e|r].
  by have -> := brute_loop_raise E; split; [ | left].
have [b rb b0] := brute_loop_not_negative (erefl : pyval (PyInt F 0) = Fin 0)
                    (lexx 0) E.
split; first by rewrite rb /= ltNge b0.
case: r rb {E} => [k|v] /= rb; last first.
  by apply: xdiv_not_negative; rewrite rb /= ltNge b0.
case: (n) => [|m] /=; first by right.
by case: rb => ->; rewrite ltNge divr_ge0 // ler0n.
Qed.

End NonNegative.

(** ** When the estimators return *)

Section WellPosed.
Variable F : realFieldType.
Context {L : lapack F}.
Variables n p : nat.
Implicit Types (X : 'M[F]_(n, p)) (y : 'cV[F]_n) (Gamma : 'M[F]_p).

(** X3.  Over exact numbers, with an invertible [Gamma] neither estimator
    raises, for any [X] and [y]: the brute-force estimator returns after
    [n] inversions, the efficient one after a single inversion, and both
    return the sum of the squared leave-one-out residuals (its mean, with
    at least one observation, in the notebook that reports means). *)
Theorem regularized_estimators_agree X y Gamma :
  Gamma \in unitmx ->
  let s := \sum_i loo_residual X y (Gamma^T *m Gamma) i ^+ 2 in
  [/\ exists2 r, Identity.compute_loocv_slow X y Gamma = (n, Return r)
               & pyval r = Fin s,
      Identity.compute_loocv X y Gamma = (1%N, Return (Fin s))
    & (0 < n)%N ->
      Verification.compute_loocv_brute_force X y Gamma =
        (n, Return (Fin (s / n%:R))) /\
      Verification.compute_loocv_efficient X y Gamma =
        (1%N, Return (Fin (s / n%:R)))].
Proof.
move=> U s.
have A_unit := regularized_unit X U.
have h1 i := regularized_leverage X i U.
have [r Er Pr] :=
  @brute_loop F L n p X y Gamma (enum 'I_n) (PyInt F 0) 0 A_unit h1 erefl.
rewrite size_enum_ord add0r big_enum /= -/s in Er Pr.
split; first by exists r.
  by rewrite /Identity.compute_loocv efficient_sum // loocv_sum_finite.
move=> n0; split.
  rewrite compute_loocv_brute_forceE Er /bind /=.
  by rewrite (py_truediv_finite Pr n0) addn0.
rewrite /Verification.compute_loocv_efficient efficient_mean //.
by rewrite loocv_mean_finite.
Qed.

End WellPosed.

(** X5.  With no observation the brute-force sum is the integer [0],
    reached without any inversion, while the brute-force mean divides the
    integer [0] by the length [0] and raises [ZeroDivisionError]; the
    efficient estimators invert [Gamma^T Gamma]: for an invertible [Gamma]
    they return [0.0] and, for the mean, [0.0 / 0] which is a NaN, and
    without regularization, [Gamma = 0] with at least one feature, they
    raise the error of the solver. *)
Theorem no_observation (F : realFieldType) (L : lapack F) (q : nat)
    (X0 : 'M[F]_(0, q)) (y0 : 'cV[F]_0) (G : 'M[F]_q) :
  [/\ Identity.compute_loocv_slow X0 y0 G = (0%N, Return (PyInt F 0)),
      Verification.compute_loocv_brute_force X0 y0 G =
        (0%N, Raise ZeroDivisionError),
      G \in unitmx ->
        Identity.compute_loocv X0 y0 G = (1%N, Return (Fin 0)) /\
        Verification.compute_loocv_efficient X0 y0 G = (1%N, Return NaN)
    & G = 0 -> (0 < q)%N ->
        Identity.compute_loocv X0 y0 G = (1%N, Raise LinAlgError) /\
        Verification.compute_loocv_efficient X0 y0 G =
          (1%N, Raise LinAlgError)].
Proof.
have E0 : enum 'I_0 = [::] by apply: size0nil; rewrite size_enum_ord.
have A0 : X0^T *m X0 + G^T *m G = G^T *m G.
  by rewrite [X0]flatmx0 mulmx0 add0r.
have UA : (G^T *m G \in unitmx) = (G \in unitmx).
  by rewrite unitmx_mul unitmx_tr andbb.
split.
- by rewrite compute_loocv_slowE E0.
- by rewrite compute_loocv_brute_forceE E0.
- move=> U; rewrite /Identity.compute_loocv.
  rewrite /Verification.compute_loocv_efficient A0.
  rewrite np_linalg_inv_unit ?UA // /bind /= /np_sum big_ord0 /=.
  by rewrite eqxx.
- case: q X0 G A0 {UA} => // q' X0 G A0 G0 _; rewrite /Identity.compute_loocv.
  rewrite /Verification.compute_loocv_efficient A0 G0 mulmx0.
  by rewrite np_linalg_inv_zero.
Qed.

(** The hypothesis of X3 holds for [X = [[1]]], [y = [1]], [Gamma = [[1]]]. *)
Lemma regularized_estimators_agree_witness :
  let L := exact_elimination rat in
  let X : 'M[rat]_(1, 1) := 1%:M in
  let y : 'cV[rat]_1 := 1%:M in
  let Gamma : 'M[rat]_1 := 1%:M in
  Gamma \in unitmx /\
  Identity.compute_loocv X y Gamma =
  (1%N, Return (Fin (\sum_i loo_residual X y (Gamma^T *m Gamma) i ^+ 2))).
Proof.
move=> L X y Gamma.
have U : Gamma \in unitmx by apply: unitmx1.
by split=> //; have [] := regularized_estimators_agree X y U.
Defined.

(** The hypotheses of X5 hold for [Gamma = [[1]]] and [Gamma = [[0]]]. *)
Lemma no_observation_witness :
  let L := exact_elimination rat in
  let X : 'M[rat]_(0, 1) := 0 in
  let y : 'cV[rat]_0 := 0 in
  let Gamma : 'M[rat]_1 := 1%:M in
  [/\ Gamma \in unitmx,
      Identity.compute_loocv X y Gamma = (1%N, Return (Fin 0))
    & Identity.compute_loocv X y 0 = (1%N, Raise LinAlgError)].
Proof.
move=> L X y Gamma.
have U : Gamma \in unitmx by apply: unitmx1.
have [_ _ /(_ U) [E _] _] := no_observation L X y Gamma.
have [_ _ _ /(_ erefl isT) [E0 _]] := no_observation L X y 0.
by split.
Defined.

(** ** The ridge fit solves the normal equations *)

Lemma fit_zero_design (F : realFieldType) (L : lapack F) (n p : nat)
    (y : 'cV[F]_n) :
  (0 < p)%N ->
  Simulation.fit_ridge_regression (0 : 'M[F]_(n, p)) y (Simulation.NdArray 0)
  = (1%N, Raise LinAlgError).
Proof.
case: p => // q _; rewrite /Simulation.fit_ridge_regression.
by rewrite mulmx0 add0r raddf0 np_linalg_inv_zero.
Qed.

Section RidgeFit.
Variable F : realFieldType.
Context {L : lapack F}.
Variables n p : nat.
Implicit Types (X : 'M[F]_(n, p)) (y : 'cV[F]_n) (alpha : 'rV[F]_p).

(** X6.  Over exact numbers, when [A = X^T X + diag(alpha)] is invertible
    the ridge fit returns, after one inversion, the only solution [b] of
    the normal equations [A b = X^T y].  For a zero design without
    regularization, of at least one feature, it inverts the zero matrix
    and raises the error of the solver. *)
Theorem ridge_fit_normal_equations X y alpha :
  let A := X^T *m X + diag_mx alpha in
  (A \in unitmx ->
   exists b,
     [/\ Simulation.fit_ridge_regression X y (Simulation.NdArray alpha) =
           (1%N, Return b),
         A *m b = X^T *m y
       & forall b', A *m b' = X^T *m y -> b' = b]) /\
  (X = 0 -> alpha = 0 -> (0 < p)%N ->
   Simulation.fit_ridge_regression X y (Simulation.NdArray alpha) =
     (1%N, Raise LinAlgError)).
Proof.
move=> A; split=> [U|-> -> p0]; last exact: fit_zero_design.
rewrite /Simulation.fit_ridge_regression -/A.
exists (invmx A *m (X^T *m y)); split.
- by rewrite np_linalg_inv_unit.
- by rewrite mulmxA mulmxV // mul1mx.
- by move=> b' <-; rewrite mulmxA mulVmx // mul1mx.
Qed.

Lemma quad_diag alpha (v : 'cV[F]_p) :
  (v^T *m diag_mx alpha *m v) 0 0 = \sum_j alpha 0 j * v j 0 ^+ 2.
Proof.
rewrite mul_mx_diag mxE; apply: eq_bigr => j _.
by rewrite !mxE expr2 mulrAC mulrA mulrC mulrA.
Qed.

Lemma posdef_diag alpha :
  (forall j, 0 < alpha 0 j) -> posdef (diag_mx alpha).
Proof.
move=> pos v v0; rewrite quad_diag.
have ge0 j : 0 <= alpha 0 j * v j 0 ^+ 2.
  by rewrite mulr_ge0 ?sqr_ge0 // ltW.
rewrite lt_neqAle sumr_ge0 // andbT eq_sym.
apply: contraNneq v0 => /eqP; rewrite psumr_eq0 // => /allP z.
apply/eqP/matrixP => j k; rewrite !ord1 [RHS]mxE.
have /implyP/(_ isT) := z j (mem_index_enum _).
by rewrite mulf_eq0 sqrf_eq0 (gt_eqF (pos j)) /= => /eqP.
Qed.

(** X7.  Over exact numbers, strictly positive regularization parameters,
    whether one Python [float] or one per feature, make
    [X^T X + diag(alpha)] positive definite: the ridge fit returns for
    every [X] and [y], every leverage lies in [[0, 1)], and the score of
    the per-feature parameters is the sum of the squares of the
    leave-one-out residuals [(y_i - yhat_i) / (1 - h_i)] divided by
    [n]. *)
Theorem positive_regularization X y (v : 'rV[F]_p) (a : F) :
  (forall j, 0 < v 0 j) -> 0 < a ->
  [/\ posdef (X^T *m X + diag_mx v),
      exists b, Simulation.fit_ridge_regression X y (Simulation.NdArray v) =
                (1%N, Return b),
      exists b, Simulation.fit_ridge_regression X y (Simulation.PyFloat p a) =
                (1%N, Return b),
      forall i, 0 <= leverage X (diag_mx v) i < 1
    & Simulation.compute_loocv X y (diag_mx v) =
      (1%N, Return (xdiv (Fin (\sum_i loo_residual X y (diag_mx v) i ^+ 2))
                      n%:R))].
Proof.
move=> posv posa.
have posw j : 0 < (a *: const_mx 1 : 'rV[F]_p) 0 j by rewrite !mxE mulr1.
have P (w : 'rV[F]_p) :
    (forall j, 0 < w 0 j) -> posdef (X^T *m X + diag_mx w).
  by move=> posw'; apply/posdef_regularized/posdef_diag.
have U (w : 'rV[F]_p) :
    (forall j, 0 < w 0 j) -> X^T *m X + diag_mx w \in unitmx.
  by move=> posw'; apply/posdef_unit/P.
have hr i : 0 <= leverage X (diag_mx v) i < 1.
  exact: leverage_range (posdef_diag posv).
split=> //.
- exact: P.
- exists (invmx (X^T *m X + diag_mx v) *m (X^T *m y)).
  by rewrite /Simulation.fit_ridge_regression np_linalg_inv_unit ?U.
- exists (invmx (X^T *m X + diag_mx (a *: const_mx 1)) *m (X^T *m y)).
  by rewrite /Simulation.fit_ridge_regression np_linalg_inv_unit ?U.
rewrite /Simulation.compute_loocv efficient_mean ?U // /loocv_mean.
by rewrite loocv_sum_finite // => i; have /andP[_ /lt_eqF ->] := hr i.
Qed.

End RidgeFit.

(** The hypotheses of X6 hold for [X = [[1]]], [y = [1]], [alpha = [1]],
    and for [X = [[0]]], [alpha = [0]]. *)
Lemma ridge_fit_normal_equations_witness :
  let L := exact_elimination rat in
  let X : 'M[rat]_(1, 1) := 1%:M in
  let y : 'cV[rat]_1 := 1%:M in
  let alpha : 'rV[rat]_1 := const_mx 1 in
  [/\ X^T *m X + diag_mx alpha \in unitmx,
      exists b, (X^T *m X + diag_mx alpha) *m b = X^T *m y
    & Simulation.fit_ridge_regression (0 : 'M[rat]_(1, 1)) y
        (Simulation.NdArray 0) = (1%N, Raise LinAlgError)].
Proof.
move=> L X y alpha.
have U : X^T *m X + diag_mx alpha \in unitmx.
  by rewrite /X /alpha diag_const_mx scalar_unit.
have [/(_ U) [b [_ Eb _]] _] := ridge_fit_normal_equations X y alpha.
have [_ /(_ erefl erefl isT) E0] :=
  ridge_fit_normal_equations (0 : 'M[rat]_(1, 1)) y 0.
by split=> //; exists b.
Defined.

(** The hypotheses of X7 hold for [X = [[1]]], [y = [1]] and the
    parameters [1] and [[1]]. *)
Lemma positive_regularization_witness :
  let L := exact_elimination rat in
  let X : 'M[rat]_(1, 1) := 1%:M in
  let y : 'cV[rat]_1 := 1%:M in
  let v : 'rV[rat]_1 := const_mx 1 in
  [/\ forall j, 0 < v 0 j, 0 < (1 : rat)
    & exists b, Simulation.fit_ridge_regression X y (Simulation.NdArray v) =
                (1%N, Return b)].
Proof.
move=> L X y v.
have pos j : 0 < v 0 j by rewrite mxE ltr01.
by split=> //; have [] := positive_regularization X y pos (@ltr01 rat).
Defined.

(** ** What a rotation keeps *)

Section RotatedFit.
Variable F : realFieldType.
Context {L : lapack F}.
Variables n p : nat.
Implicit Types (X : 'M[F]_(n, p)) (y : 'cV[F]_n) (Q : 'M[F]_n).



End RotatedFit.


(** ** One feature: the two verifiers *)

Section SameBodies.

Lemma eq_bind (T U : Type) (c : comp T) (k k' : T -> comp U) :
  (forall v, k v = k' v) -> bind c k = bind c k'.
Proof. by move=> E; rewrite /bind; case: c.2 => // v; rewrite E. Qed.

Lemma eq_forM (A : Type) (s : seq A) (body body' : A -> comp unit) :
  (forall x, body x = body' x) -> forM s body = forM s body'.
Proof.
move=> E; rewrite /forM; elim: s => [|x s IH] //=.
by rewrite E; apply: eq_bind => -[].
Qed.

Lemma forM_one (A : Type) (x : A) (body : A -> comp unit) :
  forM [:: x] body = body x.
Proof.
rewrite /forM /= /bind; case: (body x) => [t [e|[]]] //=.
by rewrite addn0.
Qed.

End SameBodies.

Section OneFeature.
Variable F : realFieldType.
Context {L : lapack F}.
Variable n : nat.

(** X9.  For a single feature the per-feature verifier called with the
    array [[a]] and the verifier of the shared parameter called with [a]
    have the same outcome after the same number of inversions. *)
Theorem single_feature_verifiers (X : 'M[F]_(n, 1)) (y : 'cV[F]_n)
    (alpha : 'rV[F]_1) :
  Simulation.verify_loocv_opt_p X y alpha =
  Simulation.verify_loocv_opt_1 X y (alpha 0 0).
Proof.
rewrite /Simulation.verify_loocv_opt_p enum_ord1 forM_one.
rewrite /Simulation.verify_loocv_opt_1.
have E x : diag_mx (Simulation.perturbed alpha ord0 x) = x *: 1%:M.
  by apply/matrixP => i j; rewrite !ord1 !mxE /= mulr1n mulr1.
rewrite /= E; apply: eq_bind => f0; apply: eq_forM => x.
by rewrite /Simulation.check_direction E.
Qed.

End OneFeature.

(** ** The verifiers on the heap and on values *)

Section Aliasing.
Variable F : realFieldType.
Context {L : lapack F}.
Variables n p : nat.

Notation heap := (Store.heap F n p).
Notation st := (Store.st F n p).
Notation unchanged := (@Store.unchanged F n p).

Variable h0 : heap.

Notation computes := (@Store.computes F n p _ h0).

Lemma computes_ret (T : Type) (v : T) : computes (Store.st_ret v) (ret v).
Proof. by move=> h. Qed.

Lemma computes_lift (T : Type) (c : comp T) : computes (Store.lift c) c.
Proof. by move=> h. Qed.

Lemma computes_bind (T U : Type) (c : st T) (c0 : comp T)
    (k : T -> st U) (k0 : T -> comp U) :
  computes c c0 -> (forall v, computes (k v) (k0 v)) ->
  computes (Store.st_bind c k) (bind c0 k0).
Proof.
move=> Hc Hk h /Hc; rewrite /Store.st_bind /bind.
case: (c h) => [h1 [t1 o1]] /= [<- u1] /=.
case: o1 => [e|v] //=.
by have [<- u2] := Hk v h1 u1; case: (k v h1) u2 => [h2 [t2 o2]].
Qed.

Lemma computes_bind_ret (T U : Type) (c : st T) (v : T) (k : T -> st U)
    (c0 : comp U) :
  computes c (ret v) -> computes (k v) c0 -> computes (Store.st_bind c k) c0.
Proof.
move=> Hc Hk h /Hc; rewrite /Store.st_bind.
case: (c h) => [h1 [t1 o1]] /= [[-> ->] u1] /=.
by have [<- u2] := Hk h1 u1; case: (k v h1) u2 => [h2 [t2 o2]].
Qed.

Lemma computes_foldM (A B : Type) (body : B -> A -> st B)
    (body0 : B -> A -> comp B) (s : seq A) (acc : B) :
  (forall b x, computes (body b x) (body0 b x)) ->
  computes (Store.st_foldM body acc s) (foldM body0 acc s).
Proof.
move=> Hb; elim: s acc => [|x s IH] acc /=; first exact: computes_ret.
by apply: computes_bind.
Qed.

Lemma computes_forM (A : Type) (body : A -> st unit)
    (body0 : A -> comp unit) (s : seq A) :
  (forall x, computes (body x) (body0 x)) ->
  computes (Store.st_forM s body) (forM s body0).
Proof. by move=> Hb; apply: computes_foldM. Qed.

Lemma deref_size (h : heap) l a : Store.deref h l = Some a -> (l < size h)%N.
Proof.
rewrite /Store.deref ltnNge; apply: contraPN => le_hl.
by rewrite drop_oversize.
Qed.

Lemma deref_unchanged (h : heap) l a :
  Store.deref h0 l = Some a -> unchanged h0 h -> Store.deref h l = Some a.
Proof. by move=> E [fresh ->]; rewrite deref_old ?(deref_size E). Qed.

Lemma computes_read (T : Type) (shape : Store.ndarray F n p -> option T)
    l a v :
  Store.deref h0 l = Some a -> shape a = Some v ->
  computes (Store.read shape l) (ret v).
Proof.
by move=> E sv h u; rewrite /Store.read (deref_unchanged E u) sv.
Qed.

Lemma computes_check (f : F -> st (float F)) (f' : F -> comp (float F))
    f0 delta_x x :
  (forall t, computes (f t) (f' t)) ->
  computes (Store.check_direction f f0 delta_x x)
           (Simulation.check_direction f' f0 delta_x x).
Proof.
move=> Hf; apply: computes_bind => // fx /=.
by case: (_ && _); [apply: computes_lift | apply: computes_ret].
Qed.

Variables (lX ly : nat) (X : 'M[F]_(n, p)) (y : 'cV[F]_n).
Hypothesis at_X : Store.deref h0 lX = Some (Store.Matrix X).
Hypothesis at_y : Store.deref h0 ly = Some (Store.Target p y).

(** Scoring a regularization array that has just been allocated. *)
Lemma computes_score (D : 'M[F]_p) (h : heap) :
  unchanged h0 h ->
  let r := Store.compute_loocv lX ly (size h) (rcons h (Store.Square n D)) in
  r = (rcons h (Store.Square n D), Simulation.compute_loocv X y D).
Proof.
move=> u; rewrite /Store.compute_loocv /Store.call /Store.st_bind.
have u' : unchanged h0 (rcons h (Store.Square n D)).
  case: u => fresh ->; exists (rcons fresh (Store.Square n D)).
  by rewrite rcons_cat.
rewrite /Store.get_matrix /Store.get_target /Store.get_square /Store.read.
rewrite (deref_unchanged at_X u') (deref_unchanged at_y u') deref_fresh /=.
by case: (Simulation.compute_loocv X y D).
Qed.

Lemma unchanged_rcons_old (h : heap) a :
  unchanged h0 h -> unchanged h0 (rcons h a).
Proof. by case=> fresh ->; exists (rcons fresh a); rewrite rcons_cat. Qed.

Lemma computes_identity_score (x : F) :
  computes
    (Store.st_bind (Store.alloc (Store.Square n (x *: 1%:M)))
       (fun D => Store.compute_loocv lX ly D))
    (Simulation.compute_loocv X y (x *: 1%:M)).
Proof.
move=> h u; rewrite /Store.st_bind /Store.alloc /=.
rewrite (computes_score _ u) /=.
split; first by case: (Simulation.compute_loocv _ _ _).
exact: unchanged_rcons_old.
Qed.

Variables (lalpha : nat) (alpha : 'rV[F]_p).
Hypothesis at_alpha : Store.deref h0 lalpha = Some (Store.Params n alpha).

Lemma computes_perturbed_score (i : 'I_p) (x : F) :
  computes
    (Store.st_bind (Store.np_array lalpha) (fun alpha_copy =>
       Store.st_bind (Store.setitem alpha_copy i x) (fun _ =>
         Store.st_bind (Store.np_diag alpha_copy) (fun D =>
           Store.compute_loocv lX ly D))))
    (Simulation.compute_loocv X y (diag_mx (Simulation.perturbed alpha i x))).
Proof.
move=> h u.
rewrite /Store.st_bind /Store.np_array /Store.np_diag /Store.st_bind.
rewrite /Store.get_params /Store.read (deref_unchanged at_alpha u) /=.
rewrite setitem_fresh /= deref_fresh /=.
have u1 := unchanged_rcons_old (Store.Params n (setitem_row alpha i x)) u.
have := computes_score (diag_mx (setitem_row alpha i x)) u1.
rewrite /= size_rcons => -> /=.
split; first by case: (Simulation.compute_loocv _ _ _).
exact: unchanged_rcons_old.
Qed.

Lemma computes_getitem (i : 'I_p) :
  computes (Store.getitem lalpha i) (ret (alpha 0 i)).
Proof.
move=> h u; rewrite /Store.getitem /Store.st_bind /Store.get_params.
by rewrite /Store.read (deref_unchanged at_alpha u).
Qed.

Lemma computes_verify_p :
  computes (Store.verify_loocv_opt_p lX ly lalpha)
           (Simulation.verify_loocv_opt_p X y alpha).
Proof.
apply: computes_forM => i.
apply: computes_bind_ret; first exact: computes_getitem.
apply: computes_bind; first exact: computes_perturbed_score.
move=> f0; apply: computes_forM => x; apply: computes_check => t.
exact: computes_perturbed_score.
Qed.

Lemma computes_verify_1 (a : F) :
  computes (Store.verify_loocv_opt_1 lX ly a)
           (Simulation.verify_loocv_opt_1 X y a).
Proof.
apply: computes_bind; first exact: computes_identity_score.
move=> f0; apply: computes_forM => x; apply: computes_check => t.
exact: computes_identity_score.
Qed.

End Aliasing.

(** X10.  Called with references to the arrays [X], [y] and [alpha], both
    verifiers return or raise, after the same number of inversions, as
    they do on the values of these arrays: every score of the per-feature
    verifier starts from a new copy of [alpha] and so sees the fitted
    values of the other components, not an earlier perturbation. *)
Theorem verifier_reads_values (F : realFieldType) (L : lapack F)
    (n p : nat) (h : Store.heap F n p) (lX ly lalpha : nat)
    (X : 'M[F]_(n, p)) (y : 'cV[F]_n) (alpha : 'rV[F]_p) :
  Store.deref h lX = Some (Store.Matrix X) ->
  Store.deref h ly = Some (Store.Target p y) ->
  Store.deref h lalpha = Some (Store.Params n alpha) ->
  (Store.verify_loocv_opt_p lX ly lalpha h).2 =
    Simulation.verify_loocv_opt_p X y alpha /\
  forall a, (Store.verify_loocv_opt_1 lX ly a h).2 =
            Simulation.verify_loocv_opt_1 X y a.
Proof.
move=> at_X at_y at_alpha; split=> [|a].
  by have [] := computes_verify_p at_X at_y at_alpha (unchanged_refl h).
by have [] := computes_verify_1 at_X at_y a (unchanged_refl h).
Qed.

(** The hypotheses of X10 hold for the heap of the three arrays
    [[[1]]], [[1]] and [[1]]. *)
Lemma verifier_reads_values_witness :
  let L := exact_elimination rat in
  let X : 'M[rat]_(1, 1) := 1%:M in
  let y : 'cV[rat]_1 := 1%:M in
  let alpha : 'rV[rat]_1 := const_mx 1 in
  let h := [:: Store.Matrix X; Store.Target 1 y; Store.Params 1 alpha] in
  [/\ Store.deref h 0 = Some (Store.Matrix X),
      Store.deref h 1 = Some (Store.Target 1 y),
      Store.deref h 2 = Some (Store.Params 1 alpha)
    & (Store.verify_loocv_opt_p 0 1 2 h).2 =
      Simulation.verify_loocv_opt_p X y alpha].
Proof.
move=> L X y alpha h.
have at_X : Store.deref h 0 = Some (Store.Matrix X) by [].
have at_y : Store.deref h 1 = Some (Store.Target 1 y) by [].
have at_alpha : Store.deref h 2 = Some (Store.Params 1 alpha) by [].
by split=> //; have [] := verifier_reads_values L at_X at_y at_alpha.
Defined.

(** ** The simulation: few trials, and the indices of the trials *)

Section FewTrials.
Variable F : realFieldType.
Context {L : lapack F}.
Variable sqrt : F -> F.

Lemma np_mean_one (v : F) : Simulation.np_mean [:: v] = Fin v.
Proof. by rewrite /Simulation.np_mean big_seq1 /= oner_eq0 divr1. Qed.

Lemma np_std_one (v : F) : Simulation.np_std sqrt [:: v] 1 = NaN.
Proof.
rewrite /Simulation.np_std np_mean_one /= subnn eqxx /=.
by rewrite subrr expr0n addr0 eqxx.
Qed.

Lemma np_std_none : Simulation.np_std sqrt [::] 1 = NaN.
Proof. by rewrite /Simulation.np_std /= sub0n !eqxx. Qed.

Lemma standard_error_nan (m : nat) :
  Simulation.standard_error sqrt NaN m = NaN.
Proof.
by rewrite /Simulation.standard_error /= ltNge ler0n.
Qed.

End FewTrials.

(** X11.  The aggregation has no guard for short lists: of no error it
    returns a NaN mean and calls [scipy.stats.t.interval] with [-1]
    degrees of freedom and a NaN scale; of a single error [v] it returns
    the mean [v] and calls it with [0] degrees of freedom and a NaN scale,
    the standard deviation with [ddof = 1] being [0.0 / 0]. *)
Theorem statistics_of_few_trials (F : realFieldType) (sqrt : F -> F)
    (t_interval : F -> int -> float F -> float F * float F) :
  Simulation.compute_simulation_statistics sqrt t_interval [::] =
    (NaN, (t_interval (95%:R / 100%:R) (- 1) NaN).2) /\
  forall v,
    Simulation.compute_simulation_statistics sqrt t_interval [:: v] =
    (Fin v, (t_interval (95%:R / 100%:R) 0 NaN).2).
Proof.
split=> [|v]; rewrite /Simulation.compute_simulation_statistics.
  rewrite np_std_none standard_error_nan /Simulation.np_mean big_nil /=.
  by rewrite !eqxx sub0r.
by rewrite np_std_one standard_error_nan np_mean_one /= subrr.
Qed.

Section TrialIndex.
Variable F : realFieldType.
Context {L : lapack F}.
Variable p : nat.
Variable beta : 'cV[F]_p.
Variables feature_sigma sigma : F.
Variable rng : Type.
Variable normal : forall m q : nat, F -> rng -> 'M[F]_(m, q) * rng.

Notation trial := (Simulation.trial F p).
Notation generate_trials :=
  (@Simulation.generate_trials F p beta feature_sigma sigma rng normal).
Notation simulation_data :=
  (@Simulation.simulation_data F p beta feature_sigma sigma rng normal).

Lemma generate_trials_index (N n : nat) (k : nat) (g : rng) :
  let r := generate_trials N n k g in
  [seq t.1 | t <- r.1.1] = iota k N /\ r.1.2 = (k + N)%N.
Proof.
rewrite /Simulation.generate_trials.
set step := (fun st _ => _).
have H (s : seq nat) (acc : seq (nat * trial n)) (j : nat) (g' : rng) :
    let r := foldl step (acc, j, g') s in
    [seq t.1 | t <- r.1.1] = [seq t.1 | t <- acc] ++ iota j (size s)
    /\ r.1.2 = (j + size s)%N.
  elim: s acc j g' => [|x s IH] acc j g' /=; first by rewrite cats0 addn0.
  have [-> ->] := IH (rcons acc (j, (Simulation.generate_simulation_data
                         beta feature_sigma sigma normal n g').1)) j.+1
                    (Simulation.generate_simulation_data
                         beta feature_sigma sigma normal n g').2.
  by rewrite map_rcons -cats1 -catA /= addSnnS.
by have := H (iota 0 N) [::] k g; rewrite size_iota.
Qed.

Lemma simulation_data_fold (N : nat) (s : seq nat)
    (acc : seq {n : nat & seq (nat * trial n)}) (j : nat) (g' : rng) :
  let r :=
    foldl (fun st n =>
        let: (simulation_data, trial_index, g) := st in
        let: (trials, trial_index, g) := generate_trials N n trial_index g in
        (rcons simulation_data (existT _ n trials), trial_index, g))
      (acc, j, g') s in
  [/\ [seq (tag e, size (tagged e)) | e <- r.1.1] =
        [seq (tag e, size (tagged e)) | e <- acc] ++ [seq (n, N) | n <- s],
      flatten [seq [seq t.1 | t <- tagged e] | e <- r.1.1] =
        flatten [seq [seq t.1 | t <- tagged e] | e <- acc]
        ++ iota j (size s * N)
    & r.1.2 = (j + size s * N)%N].
Proof.
elim: s acc j g' => [|n s IH] acc j g' /=.
  by rewrite !cats0 addn0.
have [] := generate_trials_index N n j g'.
case: (generate_trials N n j g') => [[trials j'] g''] /= Et ->.
have [-> -> ->] := IH (rcons acc (existT _ n trials)) (j + N)%N g''.
have sN : size trials = N by rewrite -(size_map fst) Et size_iota.
rewrite !map_rcons -!cats1 flatten_cat /= -!catA /= ?cats0 Et sN.
by rewrite mulSn iotaD addnA.
Qed.

(** X12.  The cell that generates the problems numbers the trials in
    sequence: there is one list per training size, of [N] trials of that
    size, the indices of the trials read list after list are
    [0, 1, ..., len(train_sizes) * N - 1], and the counter ends at
    [len(train_sizes) * N].  Trial [j] of the size of rank [k] so has the
    index [k * N + j], the row of the parameter files it is paired
    with. *)
Theorem simulation_data_index (train_sizes : seq nat) (N : nat) (g : rng) :
  let r := simulation_data train_sizes N g in
  [/\ [seq (tag e, size (tagged e)) | e <- r.1.1] =
        [seq (n, N) | n <- train_sizes],
      flatten [seq [seq t.1 | t <- tagged e] | e <- r.1.1] =
        iota 0 (size train_sizes * N)
    & r.1.2 = (size train_sizes * N)%N].
Proof. exact: (simulation_data_fold N train_sizes [::] 0 g). Qed.

End TrialIndex.

(** ** The number of inversions *)

Section Cost.

Lemma cost_bind (T U : Type) (c : comp T) (k : T -> comp U) (a b : nat) :
  (inversions c <= a)%N /\
  (forall v, result c = Return v -> inversions c = a) ->
  (forall v, (inversions (k v) <= b)%N /\
             (forall w, result (k v) = Return w -> inversions (k v) = b)) ->
  (inversions (bind c k) <= a + b)%N /\
  (forall w, result (bind c k) = Return w -> inversions (bind c k) = (a + b)%N).
Proof.
rewrite /bind /inversions /result; case: c => [t [e|v]] /= [le_a eq_a] Hk.
  by split=> //; apply: leq_trans le_a (leq_addr _ _).
have [le_b eq_b] := Hk v; split; first exact: leq_add.
by move=> w /eq_b ->; rewrite (eq_a v).
Qed.

Lemma cost_forM (A : Type) (s : seq A) (body : A -> comp unit) (a : nat) :
  (forall x, (inversions (body x) <= a)%N /\
             (forall w, result (body x) = Return w ->
                inversions (body x) = a)) ->
  (inversions (forM s body) <= size s * a)%N /\
  (forall w, result (forM s body) = Return w ->
     inversions (forM s body) = (size s * a)%N).
Proof.
move=> Hb; elim: s => [|x s IH] //=.
by rewrite mulSn; apply: cost_bind => // -[].
Qed.

Variable F : realFieldType.
Context {L : lapack F}.
Variables n p : nat.
Implicit Types (X : 'M[F]_(n, p)) (y : 'cV[F]_n) (D : 'M[F]_p).

Lemma cost_compute_loocv X y D :
  (inversions (Simulation.compute_loocv X y D) <= 1)%N /\
  (forall w, result (Simulation.compute_loocv X y D) = Return w ->
     inversions (Simulation.compute_loocv X y D) = 1%N).
Proof.
rewrite /Simulation.compute_loocv /np_linalg_inv /bind /inversions /=.
by case: (gesv _).
Qed.

Lemma cost_check (f : F -> comp (float F)) f0 delta_x x :
  (forall t, (inversions (f t) <= 1)%N /\
             (forall w, result (f t) = Return w -> inversions (f t) = 1%N)) ->
  (inversions (Simulation.check_direction f f0 delta_x x) <= 1)%N /\
  (forall w, result (Simulation.check_direction f f0 delta_x x) = Return w ->
     inversions (Simulation.check_direction f f0 delta_x x) = 1%N).
Proof.
move=> Hf; rewrite /Simulation.check_direction.
have := @cost_bind _ unit (f `|x|) _ 1 0 (Hf _).
rewrite addn0; apply => fx /=.
by case: (_ && _).
Qed.

(** X13.  The verifier of the shared parameter inverts at most three
    matrices and the per-feature verifier at most [3 p], whatever the
    outcome; a verifier that returns has inverted exactly that many. *)
Theorem verifier_cost X y :
  (forall alpha : F,
     (inversions (Simulation.verify_loocv_opt_1 X y alpha) <= 3)%N /\
     (result (Simulation.verify_loocv_opt_1 X y alpha) = Return tt ->
      inversions (Simulation.verify_loocv_opt_1 X y alpha) = 3%N)) /\
  (forall alpha : 'rV[F]_p,
     (inversions (Simulation.verify_loocv_opt_p X y alpha) <= p * 3)%N /\
     (result (Simulation.verify_loocv_opt_p X y alpha) = Return tt ->
      inversions (Simulation.verify_loocv_opt_p X y alpha) = (p * 3)%N)).
Proof.
have step (f : F -> comp (float F)) (a : F) :
    (forall t, (inversions (f t) <= 1)%N /\
       (forall w, result (f t) = Return w -> inversions (f t) = 1%N)) ->
    let c := (f0 <- f a ;;
              forM (perturbations a)
                (Simulation.check_direction f f0 (Simulation.float_1e_3 F))) in
    (inversions c <= 3)%N /\
    (forall w, result c = Return w -> inversions c = 3%N).
  move=> Hf c; apply: (@cost_bind _ _ (f a) _ 1 2) => // f0.
  by apply: (@cost_forM _ (perturbations a) _ 1) => x; apply: cost_check.
split=> alpha.
  have [le3 eq3] := step (fun x => Simulation.compute_loocv X y (x *: 1%:M))
                      alpha (fun t => cost_compute_loocv X y _).
  by split=> // /eq3.
have := @cost_forM _ (enum 'I_p) _ 3 (fun i =>
  step (fun x => Simulation.compute_loocv X y
                   (diag_mx (Simulation.perturbed alpha i x)))
       (alpha 0 i) (fun t => cost_compute_loocv X y _)).
by rewrite size_enum_ord => -[le3 eq3]; split=> // /eq3.
Qed.

Lemma cost_refits X y Gamma (s : seq 'I_n) (r : pynum F) :
  (inversions (foldM (refit X y Gamma) r s) <= size s)%N /\
  (forall w, result (foldM (refit X y Gamma) r s) = Return w ->
     inversions (foldM (refit X y Gamma) r s) = size s).
Proof.
elim: s r => [|i s IH] r //=.
rewrite -add1n; apply: cost_bind; last by move=> v; apply: IH.
by rewrite /refit /np_linalg_inv /bind /inversions /result /=; case: (gesv _).
Qed.

(** X14.  The efficient estimator calls [np.linalg.inv] exactly once,
    whether it returns or raises; the brute-force estimator calls it at
    most [n] times, and exactly [n] times when it returns. *)
Theorem estimator_cost X y Gamma :
  [/\ inversions (Identity.compute_loocv X y Gamma) = 1%N,
      (inversions (Identity.compute_loocv_slow X y Gamma) <= n)%N
    & forall r, result (Identity.compute_loocv_slow X y Gamma) = Return r ->
        inversions (Identity.compute_loocv_slow X y Gamma) = n].
Proof.
have [le_n eq_n] := cost_refits X y Gamma (enum 'I_n) (PyInt F 0).
rewrite size_enum_ord in le_n eq_n; split=> //.
rewrite /Identity.compute_loocv /np_linalg_inv /bind /inversions /=.
by case: (gesv _).
Qed.

End Cost.

(** ** A verifier that returns *)

Section FlatScore.
Variable F : realFieldType.
Context {L : lapack F}.

Lemma float_1e_3_gt0 : 0 < Simulation.float_1e_3 F.
Proof. by rewrite /Simulation.float_1e_3 invr_gt0 exprn_gt0 // ltr0n. Qed.

Lemma float_1e_3_lt1 : Simulation.float_1e_3 F < 1.
Proof.
rewrite /Simulation.float_1e_3 invf_lt1 ?exprn_gt0 ?ltr0n //.
by rewrite exprn_egt1 // ltr1n.
Qed.

Lemma evaluation_points_gt0 (a x : F) :
  1 <= a -> x \in evaluation_points a -> 0 < x.
Proof.
move=> a1; have a0 : 0 < a by apply: lt_le_trans a1.
rewrite !inE => /or3P[] /eqP -> //; rewrite normr_gt0.
  by rewrite subr_eq0 gt_eqF // (lt_le_trans float_1e_3_lt1).
by rewrite gt_eqF // addr_gt0 // float_1e_3_gt0.
Qed.

(** With the design [[0]] the score does not depend on the parameter. *)
Lemma zero_design_score (t x : F) :
  score_1 (0%:M : 'M[F]_(1, 1)) (t%:M : 'cV[F]_1) x = Fin (t ^+ 2).
Proof.
rewrite /score_1 /loocv_mean scalemx1 scalar_sum !mul0r subr0 subr0 /=.
by rewrite oner_neq0 /= oner_neq0 !divr1.
Qed.

Lemma zero_design_verifies (t a : F) :
  1 <= a ->
  result (Simulation.verify_loocv_opt_1 (0%:M : 'M[F]_(1, 1))
            (t%:M : 'cV[F]_1) a) = Return tt.
Proof.
move=> a1.
have U x : x \in evaluation_points a ->
    (0%:M : 'M[F]_(1, 1))^T *m 0%:M + x *: 1%:M \in unitmx.
  move=> /(evaluation_points_gt0 a1) x0.
  by rewrite scalemx1 scalar_unit mul0r add0r gt_eqF.
rewrite (verify_loocv_opt_1_result _ U).
rewrite (@eq_has _ _ pred0) ?has_pred0 // => x.
rewrite /steep_descent /slope !zero_design_score /= subrr.
by rewrite gt_eqF ?float_1e_3_gt0 //= mul0r ltxx.
Qed.

End FlatScore.

(** The hypothesis of the equalities of X13 holds for [X = [[0]]],
    [y = [1]] and [alpha = 1], where the verifier returns. *)
Lemma verifier_cost_witness :
  let L := exact_elimination rat in
  let X : 'M[rat]_(1, 1) := 0%:M in
  let y : 'cV[rat]_1 := 1%:M in
  result (Simulation.verify_loocv_opt_1 X y 1) = Return tt /\
  inversions (Simulation.verify_loocv_opt_1 X y 1) = 3%N.
Proof.
move=> L X y.
have R : result (Simulation.verify_loocv_opt_1 X y 1) = Return tt.
  exact: zero_design_verifies.
by split=> //; have [/(_ 1) [_ /(_ R)]] := verifier_cost X y.
Defined.

(** The hypothesis of the equality of X14 holds for [X = [[1]]],
    [y = [1]], [Gamma = [[1]]], where the brute-force estimator
    returns. *)
Lemma estimator_cost_witness :
  let L := exact_elimination rat in
  let X : 'M[rat]_(1, 1) := 1%:M in
  let y : 'cV[rat]_1 := 1%:M in
  let Gamma : 'M[rat]_1 := 1%:M in
  inversions (Identity.compute_loocv_slow X y Gamma) = 1%N.
Proof.
move=> L X y Gamma.
have U : Gamma \in unitmx by apply: unitmx1.
have [r Er _] :=
  @brute_loop rat L 1 1 X y Gamma (enum 'I_1) (PyInt rat 0) 0
    (regularized_unit X U) (fun i => regularized_leverage X i U) erefl.
have [_ _ H] := estimator_cost X y Gamma.
by apply: (H r); rewrite compute_loocv_slowE Er.
Defined.
